(** * confetto: layered configuration resolution (CLI > ENV > YAML > default)

    A shallow embedding of the Go package [confetto]: the parameter cells
    of [types.go], the three source adapters, the schema walker
    [collectParams] and the resolution engine [loadParam] / [Loader.Load]
    of [loader.go], followed by the properties proved about them.

    Conventions.  Go strings are byte strings ([string] of Stdlib, one
    [ascii] per byte).  Go [int], [int64] and [time.Duration] are [Z]
    (the code performs no arithmetic on them).  A Go map is a [gmap].
    Pointers to parameters are addresses into a store, so that the
    in-place mutation done by [setKey], [setFromString] and [setFromAny]
    is explicit state passing. *)

From Stdlib Require Import ZArith Ascii String List Lia DecimalString.
From stdpp Require Import base gmap strings list fin_maps.

Local Open Scope Z_scope.
Set Warnings "-register-all".

(** ** Byte-exact functions of Go's [strings] package *)

Module strings.

(** [s[i:]] *)
Fixpoint slice_from (i : nat) (s : string) : string :=
  match i, s with
  | O, _ => s
  | S _, EmptyString => EmptyString
  | S j, String _ s' => slice_from j s'
  end.

(** [s[:i]] *)
Fixpoint slice_to (i : nat) (s : string) : string :=
  match i, s with
  | O, _ => EmptyString
  | S _, EmptyString => EmptyString
  | S j, String c s' => String c (slice_to j s')
  end.

(** [strings.HasPrefix(s, prefix)] *)
Fixpoint HasPrefix (s prefix : string) {struct prefix} : bool :=
  match prefix with
  | EmptyString => true
  | String c p' =>
      match s with
      | EmptyString => false
      | String d s' => if decide (c = d) then HasPrefix s' p' else false
      end
  end.

(** [strings.TrimPrefix(s, prefix)] *)
Definition TrimPrefix (s prefix : string) : string :=
  if HasPrefix s prefix then slice_from (String.length prefix) s else s.

(** [strings.Index(s, substr)]: byte offset of the first occurrence,
    [-1] when there is none. *)
Fixpoint index_from (i : nat) (s substr : string) : Z :=
  if HasPrefix s substr then Z.of_nat i
  else match s with
       | EmptyString => -1
       | String _ s' => index_from (S i) s' substr
       end.

Definition Index (s substr : string) : Z := index_from 0 s substr.

(** [strings.Split(s, sep)] for a non-empty [sep]: cut at every
    occurrence of [sep], left to right.  Each cut consumes at least one
    byte, so [length s] rounds are enough. *)
Fixpoint genSplit (fuel : nat) (s sep : string) : list string :=
  match fuel with
  | O => [s]
  | S fuel' =>
      let m := Index s sep in
      if m <? 0 then [s]
      else slice_to (Z.to_nat m) s
             :: genSplit fuel' (slice_from (Z.to_nat m + String.length sep) s) sep
  end.

(** [strings.ReplaceAll(s, old, new)] for a one-byte [old]. *)
Fixpoint ReplaceAll1 (s : string) (old : ascii) (new : string) : string :=
  match s with
  | EmptyString => EmptyString
  | String c s' =>
      if decide (c = old) then new +:+ ReplaceAll1 s' old new
      else String c (ReplaceAll1 s' old new)
  end.

End strings.

(** ** Go's [strconv]: [Atoi] and [ParseBool] *)

Module strconv.

Inductive err_kind := ErrSyntax | ErrRange.

(** The digit loop of [ParseUint(s, 10, 64)]: a byte that is not a
    decimal digit is a syntax error, a value beyond [2^64 - 1] a range
    error, whichever comes first. *)
Fixpoint parse_digits (s : string) (n : Z) : Z + err_kind :=
  match s with
  | EmptyString => inl n
  | String c s' =>
      let d := Z.of_N (N_of_ascii c) - 48 in
      if (d <? 0) || (9 <? d) then inr ErrSyntax
      else if 2 ^ 64 <=? n * 10 + d then inr ErrRange
      else parse_digits s' (n * 10 + d)
  end.

(** [strconv.Atoi] on a 64-bit platform: an optional sign, at least one
    decimal digit, and a value in [-2^63, 2^63 - 1]. *)
Definition Atoi (s : string) : Z + err_kind :=
  match s with
  | EmptyString => inr ErrSyntax
  | String c s' =>
      let neg := bool_decide (c = "-"%char) in
      let body := if neg || bool_decide (c = "+"%char) then s' else s in
      match body with
      | EmptyString => inr ErrSyntax
      | _ =>
          match parse_digits body 0 with
          | inr e => inr e
          | inl un =>
              if negb neg && (2 ^ 63 <=? un) then inr ErrRange
              else if neg && (2 ^ 63 <? un) then inr ErrRange
              else inl (if neg then - un else un)
          end
      end
  end.

(** [strconv.ParseBool] *)
Definition ParseBool (str : string) : bool + err_kind :=
  if bool_decide (str ∈ ["1"; "t"; "T"; "TRUE"; "true"; "True"]) then inl true
  else if bool_decide (str ∈ ["0"; "f"; "F"; "FALSE"; "false"; "False"]) then inl false
  else inr ErrSyntax.

End strconv.

(** ** Dynamic values

    The dynamic types that reach the type switches of [setFromAny], and
    the values a decoded YAML tree holds.  [VNil] is the nil interface. *)

(** IEEE-754 bit patterns. *)
Definition float64 := Z.
Definition float32 := Z.

Inductive any : Type :=
| VNil
| VString (s : string)
| VInt (n : Z)
| VInt64 (n : Z)
| VFloat64 (f : float64)
| VFloat32 (f : float32)
| VBool (b : bool)
| VDuration (d : Z)
| VSlice (l : list any)                (* []any *)
| VStrings (l : list string)           (* []string *)
| VInts (l : list Z)                   (* []int *)
| VBools (l : list bool)               (* []bool *)
| VFloats (l : list float64)           (* []float64 *)
| VDurations (l : list Z)              (* []time.Duration *)
| VMap (m : gmap string any)           (* map[string]any *)
| VOther (descr : string).             (* any other dynamic type *)

Definition is_nil (v : any) : bool :=
  match v with VNil => true | _ => false end.

(** The underlying cause carried by a [ParseError] ([Err] field). *)
Inductive cause :=
| NumError (fn : string) (num : string) (kind : strconv.err_kind)
| LibError (msg : string).

(** An error of package [os]; [os.IsNotExist] reads [os_not_exist]. *)
Record os_error := { os_msg : string; os_not_exist : bool }.

(** ** The library and operating-system functions the package calls

    What the code obtains from the Go runtime, the process environment,
    the file system and the YAML decoder is a parameter of the model. *)
Class Runtime := {
  (* package strings, Unicode-aware functions *)
  ToUpper : string → string;
  TrimSpace : string → string;
  explode : string → list string;            (* strings.Split(s, "") *)
  (* strconv.ParseFloat(s, 64) and time.ParseDuration *)
  ParseFloat : string → float64 + cause;
  ParseDuration : string → Z + cause;
  (* numeric conversions *)
  int_of_float64 : float64 → Z;              (* int(f), time.Duration(f) *)
  float64_of_int : Z → float64;              (* float64(n) *)
  float64_of_float32 : float32 → float64;    (* float64(f) *)
  (* fmt.Sprintf("%v", v) *)
  Sprint : any → string;
  (* package os and path/filepath *)
  LookupEnv : string → option string;
  ReadFile : string → string + os_error;
  Stat : string → bool;                      (* os.Stat(p) succeeded *)
  UserHomeDir : option string;
  ExpandEnv : string → string;
  Join : string → string → string;
  (* yaml.Unmarshal into a map[string]any *)
  Unmarshal : string → gmap string any + string;
}.

(** [strings.Split] *)
Definition Split `{Runtime} (s sep : string) : list string :=
  if decide (sep = "") then explode s
  else strings.genSplit (String.length s) s sep.

(** ** Error records ([types.go], second part) *)

Inductive error : Type :=
| ParseError (Key Value Expected : string) (Err : option cause)
| ValidationError (Key : string) (Value : any) (Message : string)
| RequiredError (Key : string)
| OsError (e : os_error)               (* returned by os.ReadFile *)
| YamlError (msg : string)             (* returned by yaml.Unmarshal *)
| LoadError (Errors : list error).

Definition is_RequiredError (e : error) : bool :=
  match e with RequiredError _ => true | _ => false end.
Definition is_LoadError (e : error) : bool :=
  match e with LoadError _ => true | _ => false end.

(** [LoadError.Add] and [LoadError.HasErrors], on the [Errors] slice. *)
Definition Add (Errors : list error) (err : error) : list error := Errors ++ [err].
Definition HasErrors (Errors : list error) : bool := bool_decide (0 < length Errors)%nat.

(** ** The generic parameter cell [param[T]] *)

Record param (T : Type) : Type := mkParam {
  value : T;
  defaultVal : T;
  hasDefVal : bool;
  set : bool;
  required : bool;
  desc : string;
  k : string;
  validators : list (T → option string);   (* nil error, or err.Error() *)
}.
Arguments mkParam {T}.
Arguments value {T}.
Arguments defaultVal {T}.
Arguments hasDefVal {T}.
Arguments set {T}.
Arguments required {T}.
Arguments desc {T}.
Arguments k {T}.
Arguments validators {T}.

Section Cell.
Context {T : Type}.

(** [p.value = v] *)
Definition assign (p : param T) (v : T) : param T :=
  mkParam v (defaultVal p) (hasDefVal p) (set p) (required p) (desc p) (k p) (validators p).

(** [p.set = true] *)
Definition mark_set (p : param T) : param T :=
  mkParam (value p) (defaultVal p) (hasDefVal p) true (required p) (desc p) (k p) (validators p).

(** [p.k = key] *)
Definition param_setKey (p : param T) (key : string) : param T :=
  mkParam (value p) (defaultVal p) (hasDefVal p) (set p) (required p) (desc p) key (validators p).

(** The loop of [param.validate]: the message of the first validator
    that rejects [v]. *)
Fixpoint first_failure (vs : list (T → option string)) (v : T) : option string :=
  match vs with
  | [] => None
  | f :: vs' =>
      match f v with
      | Some msg => Some msg
      | None => first_failure vs' v
      end
  end.

(** [param.validate]; [box] is the conversion of [p.value] to [any]. *)
Definition param_validate (box : T → any) (p : param T) : option error :=
  match first_failure (validators p) (value p) with
  | Some msg => Some (ValidationError (k p) (box (value p)) msg)
  | None => None
  end.

(** The builders of [builders.go], which differ only in [T].  [Build zero]
    is [X().Build()] for the kind whose zero value is [zero]; the other
    builder methods are applied to it. *)
Definition Build (zero : T) : param T := mkParam zero zero false false false "" "" [].

Definition Default (v : T) (b : param T) : param T :=
  mkParam v v true (set b) (required b) (desc b) (k b) (validators b).

Definition Required (b : param T) : param T :=
  mkParam (value b) (defaultVal b) (hasDefVal b) (set b) true (desc b) (k b) (validators b).

Definition Validate (fn : T → option string) (b : param T) : param T :=
  mkParam (value b) (defaultVal b) (hasDefVal b) (set b) (required b) (desc b) (k b)
          (validators b ++ [fn]).

(** The body shared by the list loops of [types.go]:
    [for i, x := range xs { v, err := conv(x); if err != nil { return err }; p.value[i] = v }].
    [buf] is [p.value]; on failure it is left partly filled and the
    failing element's text and cause are returned. *)
Fixpoint range_fill {A : Type} (conv : A → T + (string * option cause))
    (xs : list A) (i : nat) (buf : list T) : list T * option (string * option cause) :=
  match xs with
  | [] => (buf, None)
  | x :: xs' =>
      match conv x with
      | inr bad => (buf, Some bad)
      | inl v => range_fill conv xs' (S i) (<[i := v]> buf)
      end
  end.

End Cell.

(** ** The ten parameter types and their coercions ([types.go])

    Every [setFromString] / [setFromAny] returns the updated cell and the
    returned [error] ([None] is [nil]). *)

Definition StringParam := param string.
Definition IntParam := param Z.
Definition BoolParam := param bool.
Definition FloatParam := param float64.
Definition DurationParam := param Z.
Definition StringListParam := param (list string).
Definition IntListParam := param (list Z).
Definition BoolListParam := param (list bool).
Definition FloatListParam := param (list float64).
Definition DurationListParam := param (list Z).

Section Coercion.
Context `{Runtime}.

(** *** Scalars *)

Definition StringParam_setFromString (p : StringParam) (s _sep : string)
  : StringParam * option error :=
  (mark_set (assign p s), None).

Definition StringParam_setFromAny (p : StringParam) (v : any) (_sep : string)
  : StringParam * option error :=
  let p := match v with
           | VString val => assign p val
           | _ => assign p (Sprint v)
           end in
  (mark_set p, None).

Definition IntParam_setFromString (p : IntParam) (s _sep : string)
  : IntParam * option error :=
  match strconv.Atoi s with
  | inr e => (p, Some (ParseError (k p) s "int" (Some (NumError "Atoi" s e))))
  | inl v => (mark_set (assign p v), None)
  end.

Definition IntParam_setFromAny (p : IntParam) (v : any) (_sep : string)
  : IntParam * option error :=
  match v with
  | VInt val => (mark_set (assign p val), None)
  | VInt64 val => (mark_set (assign p val), None)
  | VFloat64 val => (mark_set (assign p (int_of_float64 val)), None)
  | VString val => IntParam_setFromString p val ""
  | _ => (p, Some (ParseError (k p) (Sprint v) "int" None))
  end.

Definition BoolParam_setFromString (p : BoolParam) (s _sep : string)
  : BoolParam * option error :=
  match strconv.ParseBool s with
  | inr e => (p, Some (ParseError (k p) s "bool" (Some (NumError "ParseBool" s e))))
  | inl v => (mark_set (assign p v), None)
  end.

Definition BoolParam_setFromAny (p : BoolParam) (v : any) (_sep : string)
  : BoolParam * option error :=
  match v with
  | VBool val => (mark_set (assign p val), None)
  | VString val => BoolParam_setFromString p val ""
  | _ => (p, Some (ParseError (k p) (Sprint v) "bool" None))
  end.

Definition FloatParam_setFromString (p : FloatParam) (s _sep : string)
  : FloatParam * option error :=
  match ParseFloat s with
  | inr e => (p, Some (ParseError (k p) s "float64" (Some e)))
  | inl v => (mark_set (assign p v), None)
  end.

Definition FloatParam_setFromAny (p : FloatParam) (v : any) (_sep : string)
  : FloatParam * option error :=
  match v with
  | VFloat64 val => (mark_set (assign p val), None)
  | VFloat32 val => (mark_set (assign p (float64_of_float32 val)), None)
  | VInt val => (mark_set (assign p (float64_of_int val)), None)
  | VInt64 val => (mark_set (assign p (float64_of_int val)), None)
  | VString val => FloatParam_setFromString p val ""
  | _ => (p, Some (ParseError (k p) (Sprint v) "float64" None))
  end.

Definition DurationParam_setFromString (p : DurationParam) (s _sep : string)
  : DurationParam * option error :=
  match ParseDuration s with
  | inr e => (p, Some (ParseError (k p) s "duration" (Some e)))
  | inl v => (mark_set (assign p v), None)
  end.

Definition DurationParam_setFromAny (p : DurationParam) (v : any) (_sep : string)
  : DurationParam * option error :=
  match v with
  | VString val => DurationParam_setFromString p val ""
  | VInt val => (mark_set (assign p val), None)
  | VInt64 val => (mark_set (assign p val), None)
  | VFloat64 val => (mark_set (assign p (int_of_float64 val)), None)
  | _ => (p, Some (ParseError (k p) (Sprint v) "duration" None))
  end.

(** *** Element conversions of the list loops *)

(** [strconv.Atoi(strings.TrimSpace(part))]; the error names [part]. *)
Definition int_elem (part : string) : Z + (string * option cause) :=
  match strconv.Atoi (TrimSpace part) with
  | inl v => inl v
  | inr e => inr (part, Some (NumError "Atoi" (TrimSpace part) e))
  end.

Definition bool_elem (part : string) : bool + (string * option cause) :=
  match strconv.ParseBool (TrimSpace part) with
  | inl v => inl v
  | inr e => inr (part, Some (NumError "ParseBool" (TrimSpace part) e))
  end.

Definition float_elem (part : string) : float64 + (string * option cause) :=
  match ParseFloat (TrimSpace part) with
  | inl v => inl v
  | inr e => inr (part, Some e)
  end.

Definition duration_elem (part : string) : Z + (string * option cause) :=
  match ParseDuration (TrimSpace part) with
  | inl v => inl v
  | inr e => inr (part, Some e)
  end.

(** The inner type switches over the items of a [[]any]. *)
Definition string_item (item : any) : string + (string * option cause) :=
  inl (Sprint item).

Definition int_item (item : any) : Z + (string * option cause) :=
  match item with
  | VInt n => inl n
  | VInt64 n => inl n
  | VFloat64 n => inl (int_of_float64 n)
  | _ => inr (Sprint item, None)
  end.

Definition bool_item (item : any) : bool + (string * option cause) :=
  match item with
  | VBool b => inl b
  | _ => inr (Sprint item, None)
  end.

Definition float_item (item : any) : float64 + (string * option cause) :=
  match item with
  | VFloat64 n => inl n
  | VFloat32 n => inl (float64_of_float32 n)
  | VInt n => inl (float64_of_int n)
  | VInt64 n => inl (float64_of_int n)
  | _ => inr (Sprint item, None)
  end.

Definition duration_item (item : any) : Z + (string * option cause) :=
  match item with
  | VString d =>
      match ParseDuration d with
      | inl parsed => inl parsed
      | inr e => inr (d, Some e)
      end
  | VInt d => inl d
  | VInt64 d => inl d
  | VFloat64 d => inl (int_of_float64 d)
  | _ => inr (Sprint item, None)
  end.

(** [p.value = make([]T, len(xs))] followed by the loop over [xs]; on
    success [p.set = true]. *)
Definition fill_list {T A : Type} (zero : T) (expected : string)
    (conv : A → T + (string * option cause)) (p : param (list T)) (xs : list A)
  : param (list T) * option error :=
  let p := assign p (replicate (length xs) zero) in
  match range_fill conv xs 0 (value p) with
  | (buf, Some (bad, c)) => (assign p buf, Some (ParseError (k p) bad expected c))
  | (buf, None) => (mark_set (assign p buf), None)
  end.

(** *** Lists *)

Definition StringListParam_setFromString (p : StringListParam) (s sep : string)
  : StringListParam * option error :=
  let p := if decide (s = "") then assign p [] else assign p (Split s sep) in
  (mark_set p, None).

Definition StringListParam_setFromAny (p : StringListParam) (v : any) (sep : string)
  : StringListParam * option error :=
  match v with
  | VSlice val => fill_list "" "[]string" string_item p val
  | VStrings val => (mark_set (assign p val), None)
  | VString val => StringListParam_setFromString p val sep
  | _ => (p, Some (ParseError (k p) (Sprint v) "[]string" None))
  end.

Definition IntListParam_setFromString (p : IntListParam) (s sep : string)
  : IntListParam * option error :=
  if decide (s = "") then (mark_set (assign p []), None)
  else fill_list 0 "int" int_elem p (Split s sep).

Definition IntListParam_setFromAny (p : IntListParam) (v : any) (sep : string)
  : IntListParam * option error :=
  match v with
  | VSlice val => fill_list 0 "int" int_item p val
  | VInts val => (mark_set (assign p val), None)
  | VString val => IntListParam_setFromString p val sep
  | _ => (p, Some (ParseError (k p) (Sprint v) "[]int" None))
  end.

Definition BoolListParam_setFromString (p : BoolListParam) (s sep : string)
  : BoolListParam * option error :=
  if decide (s = "") then (mark_set (assign p []), None)
  else fill_list false "bool" bool_elem p (Split s sep).

Definition BoolListParam_setFromAny (p : BoolListParam) (v : any) (sep : string)
  : BoolListParam * option error :=
  match v with
  | VSlice val => fill_list false "bool" bool_item p val
  | VBools val => (mark_set (assign p val), None)
  | VString val => BoolListParam_setFromString p val sep
  | _ => (p, Some (ParseError (k p) (Sprint v) "[]bool" None))
  end.

Definition FloatListParam_setFromString (p : FloatListParam) (s sep : string)
  : FloatListParam * option error :=
  if decide (s = "") then (mark_set (assign p []), None)
  else fill_list 0 "float64" float_elem p (Split s sep).

Definition FloatListParam_setFromAny (p : FloatListParam) (v : any) (sep : string)
  : FloatListParam * option error :=
  match v with
  | VSlice val => fill_list 0 "float64" float_item p val
  | VFloats val => (mark_set (assign p val), None)
  | VString val => FloatListParam_setFromString p val sep
  | _ => (p, Some (ParseError (k p) (Sprint v) "[]float64" None))
  end.

Definition DurationListParam_setFromString (p : DurationListParam) (s sep : string)
  : DurationListParam * option error :=
  if decide (s = "") then (mark_set (assign p []), None)
  else fill_list 0 "duration" duration_elem p (Split s sep).

Definition DurationListParam_setFromAny (p : DurationListParam) (v : any) (sep : string)
  : DurationListParam * option error :=
  match v with
  | VSlice val => fill_list 0 "duration" duration_item p val
  | VDurations val => (mark_set (assign p val), None)
  | VString val => DurationListParam_setFromString p val sep
  | _ => (p, Some (ParseError (k p) (Sprint v) "[]duration" None))
  end.

End Coercion.

(** ** The [Param] interface

    A value of interface type [Param] is one of the ten parameter types;
    a method call dispatches on the dynamic type. *)

Inductive Param : Type :=
| PString (p : StringParam)
| PInt (p : IntParam)
| PBool (p : BoolParam)
| PFloat (p : FloatParam)
| PDuration (p : DurationParam)
| PStringList (p : StringListParam)
| PIntList (p : IntListParam)
| PBoolList (p : BoolListParam)
| PFloatList (p : FloatListParam)
| PDurationList (p : DurationListParam).

Definition rewrap {T : Type} (c : param T → Param) (r : param T * option error)
  : Param * option error := (c r.1, r.2).

Section Interface.
Context `{Runtime}.

Definition key (p : Param) : string :=
  match p with
  | PString q => k q | PInt q => k q | PBool q => k q | PFloat q => k q
  | PDuration q => k q | PStringList q => k q | PIntList q => k q
  | PBoolList q => k q | PFloatList q => k q | PDurationList q => k q
  end.

Definition setKey (p : Param) (key : string) : Param :=
  match p with
  | PString q => PString (param_setKey q key)
  | PInt q => PInt (param_setKey q key)
  | PBool q => PBool (param_setKey q key)
  | PFloat q => PFloat (param_setKey q key)
  | PDuration q => PDuration (param_setKey q key)
  | PStringList q => PStringList (param_setKey q key)
  | PIntList q => PIntList (param_setKey q key)
  | PBoolList q => PBoolList (param_setKey q key)
  | PFloatList q => PFloatList (param_setKey q key)
  | PDurationList q => PDurationList (param_setKey q key)
  end.

Definition setFromString (p : Param) (s listSeparator : string) : Param * option error :=
  match p with
  | PString q => rewrap PString (StringParam_setFromString q s listSeparator)
  | PInt q => rewrap PInt (IntParam_setFromString q s listSeparator)
  | PBool q => rewrap PBool (BoolParam_setFromString q s listSeparator)
  | PFloat q => rewrap PFloat (FloatParam_setFromString q s listSeparator)
  | PDuration q => rewrap PDuration (DurationParam_setFromString q s listSeparator)
  | PStringList q => rewrap PStringList (StringListParam_setFromString q s listSeparator)
  | PIntList q => rewrap PIntList (IntListParam_setFromString q s listSeparator)
  | PBoolList q => rewrap PBoolList (BoolListParam_setFromString q s listSeparator)
  | PFloatList q => rewrap PFloatList (FloatListParam_setFromString q s listSeparator)
  | PDurationList q =>
      rewrap PDurationList (DurationListParam_setFromString q s listSeparator)
  end.

Definition setFromAny (p : Param) (v : any) (listSeparator : string) : Param * option error :=
  match p with
  | PString q => rewrap PString (StringParam_setFromAny q v listSeparator)
  | PInt q => rewrap PInt (IntParam_setFromAny q v listSeparator)
  | PBool q => rewrap PBool (BoolParam_setFromAny q v listSeparator)
  | PFloat q => rewrap PFloat (FloatParam_setFromAny q v listSeparator)
  | PDuration q => rewrap PDuration (DurationParam_setFromAny q v listSeparator)
  | PStringList q => rewrap PStringList (StringListParam_setFromAny q v listSeparator)
  | PIntList q => rewrap PIntList (IntListParam_setFromAny q v listSeparator)
  | PBoolList q => rewrap PBoolList (BoolListParam_setFromAny q v listSeparator)
  | PFloatList q => rewrap PFloatList (FloatListParam_setFromAny q v listSeparator)
  | PDurationList q =>
      rewrap PDurationList (DurationListParam_setFromAny q v listSeparator)
  end.

Definition validate (p : Param) : option error :=
  match p with
  | PString q => param_validate VString q
  | PInt q => param_validate VInt q
  | PBool q => param_validate VBool q
  | PFloat q => param_validate VFloat64 q
  | PDuration q => param_validate VDuration q
  | PStringList q => param_validate VStrings q
  | PIntList q => param_validate VInts q
  | PBoolList q => param_validate VBools q
  | PFloatList q => param_validate VFloats q
  | PDurationList q => param_validate VDurations q
  end.

Definition isRequired (p : Param) : bool :=
  match p with
  | PString q => required q | PInt q => required q | PBool q => required q
  | PFloat q => required q | PDuration q => required q | PStringList q => required q
  | PIntList q => required q | PBoolList q => required q | PFloatList q => required q
  | PDurationList q => required q
  end.

Definition IsSet (p : Param) : bool :=
  match p with
  | PString q => set q | PInt q => set q | PBool q => set q | PFloat q => set q
  | PDuration q => set q | PStringList q => set q | PIntList q => set q
  | PBoolList q => set q | PFloatList q => set q | PDurationList q => set q
  end.

Definition hasDefault (p : Param) : bool :=
  match p with
  | PString q => hasDefVal q | PInt q => hasDefVal q | PBool q => hasDefVal q
  | PFloat q => hasDefVal q | PDuration q => hasDefVal q | PStringList q => hasDefVal q
  | PIntList q => hasDefVal q | PBoolList q => hasDefVal q | PFloatList q => hasDefVal q
  | PDurationList q => hasDefVal q
  end.

(** [p.Get()], boxed. *)
Definition Get (p : Param) : any :=
  match p with
  | PString q => VString (value q)
  | PInt q => VInt (value q)
  | PBool q => VBool (value q)
  | PFloat q => VFloat64 (value q)
  | PDuration q => VDuration (value q)
  | PStringList q => VStrings (value q)
  | PIntList q => VInts (value q)
  | PBoolList q => VBools (value q)
  | PFloatList q => VFloats (value q)
  | PDurationList q => VDurations (value q)
  end.

End Interface.

(** ** Source adapters *)

(** The [source] interface: its one method [get]. *)
Record source := { get : string → any }.

Record cliSource := { values : gmap string string }.
Record envSource := { prefix : string }.
Record yamlSource := { data : gmap string any }.

(** The loop of [newCLISource] from index [i] on, [args] being [args[i:]]. *)
Fixpoint cli_loop (args : list string) (values : gmap string string) : gmap string string :=
  match args with
  | [] => values
  | arg :: rest =>
      if negb (strings.HasPrefix arg "--") then cli_loop rest values
      else
        let arg := strings.TrimPrefix arg "--" in
        let idx := strings.Index arg "=" in
        if negb (idx =? -1) then
          (* --key=value *)
          let key := strings.slice_to (Z.to_nat idx) arg in
          let value := strings.slice_from (Z.to_nat (idx + 1)) arg in
          cli_loop rest (<[key := value]> values)
        else
          (* --key value, or a flag without value *)
          let key := arg in
          match rest with
          | next :: rest' =>
              if negb (strings.HasPrefix next "--")
              then cli_loop rest' (<[key := next]> values)
              else cli_loop rest (<[key := "true"]> values)
          | [] => cli_loop rest (<[key := "true"]> values)
          end
  end.

Definition newCLISource (args : list string) : cliSource :=
  {| values := cli_loop args ∅ |}.

Definition cliSource_get (s : cliSource) (key : string) : any :=
  match values s !! key with
  | Some v => VString v
  | None => VNil
  end.

Definition newEnvSource (prefix : string) : envSource := {| prefix := prefix |}.

(** The walk of [yamlSource.get] over the parts of the dotted key. *)
Fixpoint yaml_walk (parts : list string) (current : any) : any :=
  match parts with
  | [] => current
  | part :: parts' =>
      match current with
      | VMap m =>
          match m !! part with
          | Some next => yaml_walk parts' next
          | None => VNil
          end
      | _ => VNil
      end
  end.

Section Sources.
Context `{Runtime}.

Definition envSource_get (s : envSource) (key : string) : any :=
  let envKey := ToUpper (strings.ReplaceAll1 key "."%char "_") in
  let envKey := if negb (bool_decide (prefix s = "")) then prefix s +:+ "_" +:+ envKey
                else envKey in
  match LookupEnv envKey with
  | Some v => VString v
  | None => VNil
  end.

(** [inl s] is [(s, nil)], [inr err] is [(nil, err)]. *)
Definition newYAMLSource (filename : string) : yamlSource + error :=
  let s := {| data := ∅ |} in
  if decide (filename = "") then inl s
  else
    match ReadFile filename with
    | inr err =>
        if os_not_exist err then inl s else inr (OsError err)
    | inl content =>
        match Unmarshal content with
        | inr msg => inr (YamlError msg)
        | inl tree => inl {| data := tree |}
        end
    end.

Definition yamlSource_get (s : yamlSource) (key : string) : any :=
  yaml_walk (Split key ".") (VMap (data s)).

Definition cli_source (s : cliSource) : source := {| get := cliSource_get s |}.
Definition env_source (s : envSource) : source := {| get := envSource_get s |}.
Definition yaml_source (s : yamlSource) : source := {| get := yamlSource_get s |}.

End Sources.

(** ** The resolution engine ([loader.go]) *)

Record Options := {
  ConfigFile : string;
  ConfigPaths : list string;
  EnvPrefix : string;
  Args : list string;
  ListSeparator : string;
}.

(** The source scan of [loadParam]: the first non-nil [src.get(key)]. *)
Fixpoint first_value (sources : list source) (key : string) : any :=
  match sources with
  | [] => VNil
  | src :: rest =>
      let v := get src key in
      if negb (is_nil v) then v else first_value rest key
  end.

Section Engine.
Context `{Runtime}.

(** The coercion step of [loadParam] on a non-nil [value]. *)
Definition coerce (p : Param) (value : any) (listSeparator : string) : Param * option error :=
  match value with
  | VString s => setFromString p s listSeparator
  | _ => setFromAny p value listSeparator
  end.

(** [loadParam]; the result is the cell after the call and the
    [Errors] of [loadErr] after the call. *)
Definition loadParam (p : Param) (sources : list source) (opts : Options)
    (loadErr : list error) : Param * list error :=
  let key := key p in
  let value := first_value sources key in
  let '(p, setErr) :=
    if negb (is_nil value) then coerce p value (ListSeparator opts) else (p, None) in
  match setErr with
  | Some e => (p, Add loadErr e)
  | None =>
      let loadErr :=
        match validate p with
        | Some err => Add loadErr err
        | None => loadErr
        end in
      let loadErr :=
        if isRequired p && negb (IsSet p) && negb (hasDefault p)
        then Add loadErr (RequiredError key)
        else loadErr in
      (p, loadErr)
  end.

End Engine.

(** ** The schema walker

    What reflection shows of a configuration struct passed by pointer.
    A field carries its [cfg] tag and whether it is embedded
    ([Anonymous]); its value is a parameter cell (a field whose address
    implements [Param], given by the address of the cell), a nested
    struct, or anything else. *)

Inductive field_value : Type :=
| FParam (a : nat)
| FStruct (fields : list field)
| FOther
with field : Type :=
| Field (tag : string) (Anonymous : bool) (v : field_value).

(** [reflect.ValueOf(v)], dereferenced when [v] is a pointer. *)
Inductive reflect_value : Type :=
| Struct (fields : list field)
| NotStruct.

(** The parameter cells, by address. *)
Abbreviation store := (list Param).

Section Walker.
Context `{Runtime}.

(** [p.setKey(key)] through the pointer [a]. *)
Definition setKeyAt (a : nat) (key : string) (h : store) : store :=
  alter (λ p, setKey p key) a h.

(** The key built for a field from the prefix and its tag. *)
Definition field_key (prefix tag : string) : string :=
  let key := tag in
  if negb (bool_decide (prefix = "")) && negb (bool_decide (key = "")) then
    prefix +:+ "." +:+ key
  else if negb (bool_decide (prefix = "")) then prefix
  else key.

(** One round of the loop of [collectParams] for field [f], [st]
    holding [params] and the store.  The nested case is the recursive
    call [collectParams(field.Addr().Interface(), key)], whose own loop
    starts from an empty [params]. *)
Fixpoint field_step (prefix : string) (f : field) (st : list nat * store)
    {struct f} : list nat * store :=
  match f with
  | Field tag Anonymous v =>
      if bool_decide (tag = "") && negb Anonymous then st
      else
        let key := field_key prefix tag in
        match v with
        | FParam a => (st.1 ++ [a], setKeyAt a key st.2)
        | FStruct fields =>
            let nested := fold_left (λ st' f', field_step key f' st') fields ([], st.2) in
            (st.1 ++ nested.1, nested.2)
        | FOther => st
        end
  end.

Definition collectParams (v : reflect_value) (prefix : string) (h : store)
  : list nat * store :=
  match v with
  | Struct fields => fold_left (λ st f, field_step prefix f st) fields ([], h)
  | NotStruct => ([], h)
  end.

End Walker.

(** ** The loader *)

Record registration := { reg_prefix : string; cfg : reflect_value }.

Record Loader := { opts : Options; registrations : list registration }.

Definition NewLoader (opts : Options) : Loader := {| opts := opts; registrations := [] |}.

Definition Register (l : Loader) (prefix : string) (cfg : reflect_value) : Loader :=
  {| opts := opts l;
     registrations := registrations l ++ [{| reg_prefix := prefix; cfg := cfg |}] |}.

Section Load.
Context `{Runtime}.

Fixpoint FindConfigFile (paths : list string) : string :=
  match paths with
  | [] => ""
  | p :: rest =>
      let p := match p with
               | String "~" tail =>
                   match UserHomeDir with
                   | Some home => Join home tail
                   | None => p
                   end
               | _ => p
               end in
      let p := ExpandEnv p in
      if Stat p then p else FindConfigFile rest
  end.

Definition collectAllParams (l : Loader) (h : store) : list nat * store :=
  fold_left
    (λ st r, let got := collectParams (cfg r) (reg_prefix r) st.2 in (st.1 ++ got.1, got.2))
    (registrations l) ([], h).

(** [loadParam(p, sources, opts, loadErr)] through the pointer [a]. *)
Definition loadParamAt (a : nat) (sources : list source) (opts : Options)
    (st : store * list error) : store * list error :=
  match st.1 !! a with
  | Some p =>
      let r := loadParam p sources opts st.2 in
      (<[a := r.1]> st.1, r.2)
  | None => st
  end.

Definition with_ListSeparator (o : Options) (sep : string) : Options :=
  {| ConfigFile := ConfigFile o; ConfigPaths := ConfigPaths o;
     EnvPrefix := EnvPrefix o; Args := Args o; ListSeparator := sep |}.

(** [if opts.ListSeparator == "" { opts.ListSeparator = "," }] *)
Definition default_separator (o : Options) : Options :=
  if bool_decide (ListSeparator o = "") then with_ListSeparator o "," else o.

(** The three sources of a load, in the order [Loader.Load] lists them. *)
Definition sources_of (opts : Options) (yamlSrc : yamlSource) : list source :=
  [cli_source (newCLISource (Args opts));
   env_source (newEnvSource (EnvPrefix opts));
   yaml_source yamlSrc].

(** The file handed to [newYAMLSource]. *)
Definition config_file (opts : Options) : string :=
  if bool_decide (ConfigFile opts = "") && bool_decide (0 < length (ConfigPaths opts))%nat
  then FindConfigFile (ConfigPaths opts)
  else ConfigFile opts.

(** [Loader.Load]: the store after the call and the returned error. *)
Definition Loader_Load (l : Loader) (h : store) : store * option error :=
  let opts := default_separator (opts l) in
  let configFile := config_file opts in
  match newYAMLSource configFile with
  | inr err => (h, Some err)
  | inl yamlSrc =>
      let sources := sources_of opts yamlSrc in
      let '(params, h) := collectAllParams l h in
      let '(h, loadErr) :=
        fold_left (λ st p, loadParamAt p sources opts st) params (h, []) in
      if HasErrors loadErr then (h, Some (LoadError loadErr)) else (h, None)
  end.

(** The package-level [Load(cfg, opts)]. *)
Definition Load (cfg : reflect_value) (opts : Options) (h : store) : store * option error :=
  let l := NewLoader opts in
  let l := Register l "" cfg in
  Loader_Load l h.

End Load.

(** ** A runtime for evaluating the model on examples

    The Unicode-aware functions are given on ASCII text, the float and
    duration parsers on the literals listed, and the environment and the
    file system hold a few entries. *)

Module demo.

Definition is_space (c : ascii) : bool :=
  bool_decide (c ∈ [" "%char; "009"%char; "010"%char; "011"%char; "012"%char; "013"%char]).

Fixpoint trim_left (s : string) : string :=
  match s with
  | String c s' => if is_space c then trim_left s' else s
  | EmptyString => EmptyString
  end.

Definition trim_space (s : string) : string :=
  String.rev (trim_left (String.rev (trim_left s))).

Definition upper (c : ascii) : ascii :=
  let n := N_of_ascii c in
  if (97 <=? n)%N && (n <=? 122)%N then ascii_of_N (n - 32) else c.

Fixpoint to_upper (s : string) : string :=
  match s with
  | EmptyString => EmptyString
  | String c s' => String (upper c) (to_upper s')
  end.

Fixpoint bytes (s : string) : list string :=
  match s with
  | EmptyString => []
  | String c s' => String c EmptyString :: bytes s'
  end.

Definition lookup_table {V : Type} (table : list (string * V)) (x : string) : option V :=
  (list_to_map table : gmap string V) !! x.

Definition parse_float (s : string) : float64 + cause :=
  match lookup_table [("0", 0); ("1", 4607182418800017408); ("1.5", 4609434218613702656)] s with
  | Some bits => inl bits
  | None => inr (NumError "ParseFloat" s strconv.ErrSyntax)
  end.

Definition parse_duration (s : string) : Z + cause :=
  match lookup_table [("0", 0); ("500ms", 500000000); ("30s", 30000000000);
                      ("1m", 60000000000)] s with
  | Some d => inl d
  | None => inr (LibError "time: invalid duration")
  end.

Definition sprint (v : any) : string :=
  match v with
  | VNil => "<nil>"
  | VString s => s
  | VBool true => "true"
  | VBool false => "false"
  | _ => "?"
  end.

Definition environ : list (string * string) :=
  [("DB_PORT", "2222"); ("APP_NAME", "from-env")].

Definition no_such_file : os_error :=
  {| os_msg := "no such file or directory"; os_not_exist := true |}.

Definition files : list (string * string) :=
  [("config.yaml", "name: from-file"); ("broken.yaml", "name: [")].

Definition documents : list (string * (gmap string any + string)) :=
  [("name: from-file", inl {[ "name" := VString "from-file" ]});
   ("name: [", inr "yaml: line 1: did not find expected node content")].

Definition runtime : Runtime := {|
  ToUpper := to_upper;
  TrimSpace := trim_space;
  explode := bytes;
  ParseFloat := parse_float;
  ParseDuration := parse_duration;
  int_of_float64 := λ _, 0;
  float64_of_int := λ _, 0;
  float64_of_float32 := λ _, 0;
  Sprint := sprint;
  LookupEnv := lookup_table environ;
  ReadFile := λ name, match lookup_table files name with
                      | Some content => inl content
                      | None => inr no_such_file
                      end;
  Stat := λ name, bool_decide (is_Some (lookup_table files name));
  UserHomeDir := Some "/home/user";
  ExpandEnv := λ p, p;
  Join := λ a b, a +:+ b;
  Unmarshal := λ content, match lookup_table documents content with
                          | Some r => r
                          | None => inl ∅
                          end;
|}.

End demo.

(** ** Definitions used to state the properties *)

(** The key assigned by a token of the argument list: a token that
    starts with the long-flag prefix assigns the text up to its first
    [=] (all of it when there is none); any other token assigns none. *)
Definition flag_key (tok : string) : option string :=
  if strings.HasPrefix tok "--" then
    let arg := strings.TrimPrefix tok "--" in
    let idx := strings.Index arg "=" in
    Some (if idx =? -1 then arg else strings.slice_to (Z.to_nat idx) arg)
  else None.

(** The value a flag token receives, [next] being the token after it. *)
Definition flag_value (tok : string) (next : option string) : string :=
  let arg := strings.TrimPrefix tok "--" in
  let idx := strings.Index arg "=" in
  if negb (idx =? -1) then strings.slice_from (Z.to_nat (idx + 1)) arg
  else match next with
       | Some n => if strings.HasPrefix n "--" then "true" else n
       | None => "true"
       end.

(** Whether a flag token takes the token after it as its value. *)
Definition takes_next (tok : string) (next : option string) : bool :=
  (strings.Index (strings.TrimPrefix tok "--") "=" =? -1) &&
  match next with
  | Some n => negb (strings.HasPrefix n "--")
  | None => false
  end.

(** What every coercion does to a cell besides storing the value: the
    key, the flags and the validators stay; a returned error is a
    [ParseError] for the cell's key and leaves [set] as it was; success
    sets [set]. *)
Definition coerced {T : Type} (p : param T) (r : param T * option error) : Prop :=
  k r.1 = k p ∧ required r.1 = required p ∧ hasDefVal r.1 = hasDefVal p ∧
  defaultVal r.1 = defaultVal p ∧ validators r.1 = validators p ∧
  match r.2 with
  | Some e => set r.1 = set p ∧ ∃ raw expected c, e = ParseError (k p) raw expected c
  | None => set r.1 = true
  end.

(** The same, for a value of interface type [Param]. *)
Definition Param_coerced (P : Param) (r : Param * option error) : Prop :=
  key r.1 = key P ∧ isRequired r.1 = isRequired P ∧ hasDefault r.1 = hasDefault P ∧
  match r.2 with
  | Some e => IsSet r.1 = IsSet P ∧ ∃ raw expected c, e = ParseError (key P) raw expected c
  | None => IsSet r.1 = true
  end.

(** The errors [loadParam] adds after the coercion step: the validation
    error, then the required error. *)
Definition checks `{Runtime} (P : Param) : list error :=
  match validate P with
  | Some err => [err]
  | None => []
  end ++
  if isRequired P && negb (IsSet P) && negb (hasDefault P) then [RequiredError (key P)] else [].

(** [NotEmpty()] of [validators.go]. *)
Definition NotEmpty : string → option string :=
  λ v, if decide (v = "") then Some "validation error: string must not be empty" else None.

(** Parameters, options and sources of the examples. *)
Module examples.

(** [String().Required().Validate(NotEmpty()).Build()], key [name] *)
Definition name_param : Param :=
  PString (param_setKey (Validate NotEmpty (Required (Build ""))) "name").

(** [Int().Required().Build()], key [port] *)
Definition port_param : Param := PInt (param_setKey (Required (Build 0)) "port").

(** [String().Default("localhost").Required().Build()], key [host] *)
Definition host_param : Param :=
  PString (param_setKey (Required (Default "localhost" (Build ""))) "host").

Definition options (args : list string) (configFile envPrefix : string) : Options :=
  {| ConfigFile := configFile; ConfigPaths := []; EnvPrefix := envPrefix;
     Args := args; ListSeparator := "," |}.

(** The sources [Loader.Load] builds when no configuration file is read. *)
Definition sources (args : list string) (envPrefix : string) : list source :=
  sources_of (H := demo.runtime) (options args "" envPrefix) {| data := ∅ |}.

(** A configuration struct with the fields [Name] ([cfg:"name"]), [DB]
    ([cfg:"db"], a struct with [Host] and [Port]) and an untagged
    plain string, and the three cells its parameters occupy. *)
Definition config_fields : list field :=
  [Field "name" false (FParam 0);
   Field "db" false (FStruct [Field "host" false (FParam 1);
                              Field "port" false (FParam 2)]);
   Field "" false FOther].

Definition cells : store :=
  [PString (Build ""); PString (Default "localhost" (Build ""));
   PInt (Default 5432 (Build 0))].

Definition loader (args : list string) (configFile envPrefix : string) : Loader :=
  Register (NewLoader (options args configFile envPrefix)) "" (Struct config_fields).

End examples.

(** [strconv.Atoi] and [strconv.ParseBool] with the error they return. *)
Definition parse_int (s : string) : Z + cause :=
  match strconv.Atoi s with
  | inl v => inl v
  | inr e => inr (NumError "Atoi" s e)
  end.

Definition parse_bool (s : string) : bool + cause :=
  match strconv.ParseBool s with
  | inl v => inl v
  | inr e => inr (NumError "ParseBool" s e)
  end.

(** A list coercion [setFromString] with element parser [parse] stops at
    the first malformed element: when the text is not empty and its
    split is [pre ++ bad :: post], the elements of [pre] parse to [vs]
    and [bad] (trimmed) does not parse, the call returns the
    [ParseError] holding the untrimmed text of [bad], the element kind
    [expected] and the parser's error, and leaves in the cell the values
    [vs] followed by zero values.  Nothing in the result depends on what
    the elements of [post] are, only on how many there are. *)
Definition stops_at_first_failure `{Runtime} {T : Type}
    (setFromString : param (list T) → string → string → param (list T) * option error)
    (parse : string → T + cause) (zero : T) (expected : string) : Prop :=
  ∀ (p : param (list T)) (s sep : string) (pre : list string) (bad : string)
    (post : list string) (vs : list T) (c : cause),
    s ≠ "" →
    Split s sep = pre ++ bad :: post →
    Forall2 (λ x v, parse (TrimSpace x) = inl v) pre vs →
    parse (TrimSpace bad) = inr c →
    setFromString p s sep
      = (assign p (vs ++ replicate (S (length post)) zero),
         Some (ParseError (k p) bad expected (Some c))).

(** The dotted key of a field, in the words of the specification:
    [prefix.key] when both are non-empty, [key] when the prefix is
    empty, [prefix] when the key is empty. *)
Definition dotted (prefix key : string) : string :=
  if decide (prefix ≠ "" ∧ key ≠ "") then prefix +:+ "." +:+ key
  else if decide (prefix = "") then key
  else prefix.

(** The parameters the specification has the walker discover under a
    field, depth first in declaration order, each with its dotted key: a
    field without key that is not embedded yields nothing; a parameter
    yields itself; a nested struct yields what its fields yield under
    the dotted key of the struct. *)
Fixpoint discovered (prefix : string) (f : field) : list (nat * string) :=
  match f with
  | Field tag Anonymous v =>
      if decide (tag = "" ∧ Anonymous = false) then []
      else
        match v with
        | FParam a => [(a, dotted prefix tag)]
        | FStruct fields => flat_map (discovered (dotted prefix tag)) fields
        | FOther => []
        end
  end.

(** Key assignment through the pointers, in order. *)
Definition assign_keys (ks : list (nat * string)) (h : store) : store :=
  fold_left (λ h' ak, setKeyAt ak.1 ak.2 h') ks h.

(** Induction on fields, through the fields of nested structs. *)
Section field_induction.
Variable Q : field → Prop.
Hypothesis Hparam : ∀ tag anon a, Q (Field tag anon (FParam a)).
Hypothesis Hstruct : ∀ tag anon fields, Forall Q fields → Q (Field tag anon (FStruct fields)).
Hypothesis Hother : ∀ tag anon, Q (Field tag anon FOther).

Fixpoint field_nested_ind (f : field) : Q f :=
  match f with
  | Field tag anon v =>
      match v with
      | FParam a => Hparam tag anon a
      | FStruct fields =>
          Hstruct tag anon fields
            ((fix all (fs : list field) : Forall Q fs :=
                match fs with
                | [] => List.Forall_nil Q
                | f' :: fs' => List.Forall_cons Q f' fs' (field_nested_ind f') (all fs')
                end) fields)
      | FOther => Hother tag anon
      end
  end.
End field_induction.

(** The five scalar kinds. *)
Definition is_scalar (P : Param) : bool :=
  match P with
  | PString _ | PInt _ | PBool _ | PFloat _ | PDuration _ => true
  | _ => false
  end.

(** A list coercion [setFromString] with element parser [parse] stores
    the parsed elements: when the text is not empty and every element of
    its split parses (trimmed), the cell holds the parsed values in the
    order of the text and is set, and no error is returned. *)
Definition parses_all `{Runtime} {T : Type}
    (setFromString : param (list T) → string → string → param (list T) * option error)
    (parse : string → T + cause) : Prop :=
  ∀ (p : param (list T)) (s sep : string) (vs : list T),
    s ≠ "" →
    Forall2 (λ x v, parse (TrimSpace x) = inl v) (Split s sep) vs →
    setFromString p s sep = (mark_set (assign p vs), None).

(** A list coercion [setFromAny] with item conversion [item] stops at
    the first item of a [[]any] that does not convert: the items before
    it are stored, followed by zero values, and the [ParseError] carries
    the text and cause the conversion gives for the failing item. *)
Definition items_stop_at_first_failure {T : Type}
    (setFromAny : param (list T) → any → string → param (list T) * option error)
    (item : any → T + (string * option cause)) (zero : T) (expected : string) : Prop :=
  ∀ (p : param (list T)) (sep : string) (pre : list any) (bad : any) (post : list any)
    (vs : list T) (t : string) (c : option cause),
    Forall2 (λ x v, item x = inl v) pre vs →
    item bad = inr (t, c) →
    setFromAny p (VSlice (pre ++ bad :: post)) sep
      = (assign p (vs ++ replicate (S (length post)) zero),
         Some (ParseError (k p) t expected c)).

(** The key an error record refers to. *)
Definition error_key (e : error) : option string :=
  match e with
  | ParseError key _ _ _ => Some key
  | ValidationError key _ _ => Some key
  | RequiredError key => Some key
  | _ => None
  end.

(** The errors one parameter contributes to a load. *)
Definition param_errors `{Runtime} (P : Param) (sources : list source) (opts : Options)
  : list error :=
  (loadParam P sources opts []).2.

(** What all the registrations of a loader discover, in registration
    order. *)
Definition discovered_regs (regs : list registration) : list (nat * string) :=
  flat_map (λ r, match cfg r with
                 | Struct fields => flat_map (discovered (reg_prefix r)) fields
                 | NotStruct => []
                 end) regs.

Definition discovered_all (l : Loader) : list (nat * string) :=
  discovered_regs (registrations l).

(** The effect of a sequence of key assignments on the cell at address
    [i]. *)
Definition apply_keys (ks : list (nat * string)) (i : nat) (P : Param) : Param :=
  fold_left (λ Q ak, if decide (ak.1 = i) then setKey Q ak.2 else Q) ks P.

(** The errors the cell at address [a] of store [h] contributes. *)
Definition cell_errors `{Runtime} (h : store) (sources : list source) (opts : Options)
    (a : nat) : list error :=
  match h !! a with
  | Some P => param_errors P sources opts
  | None => []
  end.

(** ** Validators ([validators.go])

    A validator returns [None] for nil and the text of the error
    otherwise.  [%d] prints in decimal. *)

Definition itoa (n : Z) : string := NilZero.string_of_int (Z.to_int n).

(** [ErrValidation.Error()] *)
Definition ErrValidation : string := "validation error".

Definition Range (lo hi : Z) : Z → option string :=
  λ v, if (v <? lo) || (hi <? v)
       then Some (ErrValidation +:+ ": value " +:+ itoa v +:+ " is not in range ["
                    +:+ itoa lo +:+ ", " +:+ itoa hi +:+ "]")
       else None.

Definition MinLen (n : Z) : string → option string :=
  λ v, if Z.of_nat (String.length v) <? n
       then Some (ErrValidation +:+ ": string length " +:+ itoa (Z.of_nat (String.length v))
                    +:+ " is less than minimum " +:+ itoa n)
       else None.

Definition MaxLen (n : Z) : string → option string :=
  λ v, if n <? Z.of_nat (String.length v)
       then Some (ErrValidation +:+ ": string length " +:+ itoa (Z.of_nat (String.length v))
                    +:+ " is greater than maximum " +:+ itoa n)
       else None.

Definition MinItems {T : Type} (n : Z) : list T → option string :=
  λ v, if Z.of_nat (length v) <? n
       then Some (ErrValidation +:+ ": list has " +:+ itoa (Z.of_nat (length v))
                    +:+ " items, minimum is " +:+ itoa n)
       else None.

Definition MaxItems {T : Type} (n : Z) : list T → option string :=
  λ v, if n <? Z.of_nat (length v)
       then Some (ErrValidation +:+ ": list has " +:+ itoa (Z.of_nat (length v))
                    +:+ " items, maximum is " +:+ itoa n)
       else None.

Definition Positive : Z → option string :=
  λ v, if v <=? 0
       then Some (ErrValidation +:+ ": value " +:+ itoa v +:+ " must be positive")
       else None.

Definition NonNegative : Z → option string :=
  λ v, if v <? 0
       then Some (ErrValidation +:+ ": value " +:+ itoa v +:+ " must be non-negative")
       else None.

(** ** Dump ([dump.go])

    [isSecret] reads the [secret] field that the parameter struct of
    [dump.go]'s version of the package has; it is a parameter here.
    [stringValue] is [fmt.Sprintf("%v", p.value)]. *)

Definition maskedValue : string := "****".

Section Dump.
Context `{Runtime}.
Variable isSecret : Param → bool.

Definition stringValue (p : Param) : string := Sprint (Get p).

(** The loop of [dumpParams] from index [i] on, [b] being the builder. *)
Fixpoint dump_loop (i : nat) (params : list Param) (b : string) : string :=
  match params with
  | [] => b
  | p :: rest =>
      let b := if (0 <? i)%nat then b +:+ String "010"%char "" else b in
      let b := b +:+ key p in
      let b := b +:+ " = " in
      let b := if isSecret p then b +:+ maskedValue
               else if negb (IsSet p) && negb (hasDefault p) then b +:+ "<not set>"
               else b +:+ stringValue p in
      dump_loop (S i) rest b
  end.

Definition dumpParams (params : list Param) : string := dump_loop 0 params "".

(** [Dump(cfg)]: the walk assigns keys under the empty prefix, then the
    cells it returns are rendered. *)
Definition Dump (cfg : reflect_value) (h : store) : store * string :=
  let got := collectParams cfg "" h in
  (got.2, dumpParams (omap (λ a, got.2 !! a) got.1)).

(** One rendered line. *)
Definition dump_line (p : Param) : string :=
  key p +:+ " = " +:+
  (if isSecret p then "****"
   else if IsSet p || hasDefault p then stringValue p
   else "<not set>").

End Dump.

(** A candidate path of [FindConfigFile] after the expansion of [~] and
    of environment variables. *)
Definition expand_path `{Runtime} (p : string) : string :=
  ExpandEnv (match p with
             | String "~" tail =>
                 match UserHomeDir with
                 | Some home => Join home tail
                 | None => p
                 end
             | _ => p
             end).

(** [Int().Default(5432).Validate(Range(1, 65535)).Build()], key [port] *)
Definition ranged_port : IntParam :=
  param_setKey (Validate (Range 1 65535) (Default 5432 (Build 0))) "port".

(** * Properties *)

(** ** String lemmas *)

Lemma HasPrefix_app (p s : string) : strings.HasPrefix (p +:+ s) p = true.
Proof.
  induction p as [|c p IH]; simpl; [done|].
  by rewrite decide_True.
Qed.

Lemma slice_from_app (p s : string) : strings.slice_from (String.length p) (p +:+ s) = s.
Proof. induction p as [|c p IH]; simpl; [by destruct s | done]. Qed.

Lemma slice_to_app (p s : string) : strings.slice_to (String.length p) (p +:+ s) = p.
Proof. induction p as [|c p IH]; simpl; [by destruct s | by rewrite IH]. Qed.

Lemma TrimPrefix_app (p s : string) : strings.TrimPrefix (p +:+ s) p = s.
Proof. unfold strings.TrimPrefix. by rewrite HasPrefix_app, slice_from_app. Qed.

Lemma index_from_shift (sub s : string) (i : nat) :
  (strings.index_from i s sub = -1 ∧ strings.index_from 0 s sub = -1) ∨
  (0 ≤ strings.index_from 0 s sub ∧
   strings.index_from i s sub = Z.of_nat i + strings.index_from 0 s sub).
Proof.
  revert i. induction s as [|c s IH]; intros i; cbn [strings.index_from].
  - destruct (strings.HasPrefix "" sub); [right; lia | left; done].
  - destruct (strings.HasPrefix (String c s) sub); [right; lia|].
    destruct (IH (S i)) as [[? ?]|[? ?]]; destruct (IH 1%nat) as [[? ?]|[? ?]]; lia.
Qed.

Lemma Index_key_eq (key val : string) (i : nat) :
  strings.Index key "=" = -1 →
  strings.index_from i (key +:+ "=" +:+ val) "=" = Z.of_nat (i + String.length key).
Proof.
  unfold strings.Index. revert i. induction key as [|c key IH]; intros i Hno.
  - simpl. f_equal. lia.
  - simpl in Hno.
    change (String c key +:+ "=" +:+ val) with (String c (key +:+ "=" +:+ val)).
    cbn [strings.index_from strings.HasPrefix String.length].
    destruct (decide ("="%char = c)) as [Heq|Hc]; [done|].
    rewrite IH; [f_equal; lia|].
    destruct (index_from_shift "=" key 1) as [[_ ?]|[? Heq]]; [done | lia].
Qed.

(** ** The argument-list loop *)

Lemma cli_loop_skip (tok : string) (rest : list string) (m : gmap string string) :
  strings.HasPrefix tok "--" = false → cli_loop (tok :: rest) m = cli_loop rest m.
Proof. intros Hp. cbn [cli_loop]. by rewrite Hp. Qed.

Lemma cli_loop_flag (tok : string) (rest : list string) (m : gmap string string) (key : string) :
  flag_key tok = Some key →
  cli_loop (tok :: rest) m =
    cli_loop (if takes_next tok (head rest) then tail rest else rest)
             (<[key := flag_value tok (head rest)]> m).
Proof.
  unfold flag_key, flag_value, takes_next. intros Hk.
  destruct (strings.HasPrefix tok "--") eqn:Hp; [|done].
  injection Hk as <-. cbn [cli_loop]. rewrite Hp. cbn [negb].
  destruct (strings.Index (strings.TrimPrefix tok "--") "=" =? -1) eqn:Hidx; cbn [negb andb].
  - destruct rest as [|next rest']; [done|]. cbn [head tail].
    by destruct (strings.HasPrefix next "--").
  - done.
Qed.

Lemma flag_key_prefix (tok key : string) :
  flag_key tok = Some key → strings.HasPrefix tok "--" = true.
Proof. unfold flag_key. by destruct (strings.HasPrefix tok "--"). Qed.

(** A token that starts with [--] is never taken as the value of the
    token before it: the loop reaches it with the map built so far. *)
Lemma cli_loop_app (pre : list string) (tok : string) (rest : list string)
    (m : gmap string string) :
  strings.HasPrefix tok "--" = true →
  cli_loop (pre ++ tok :: rest) m = cli_loop (tok :: rest) (cli_loop pre m).
Proof.
  intros Htok. remember (length pre) as n eqn:Hn.
  assert (Hle : (length pre ≤ n)%nat) by lia. clear Hn.
  revert pre m Hle. induction n as [|n IH]; intros pre m Hle.
  { destruct pre; [done | simpl in Hle; lia]. }
  destruct pre as [|a pre]; [done|]. simpl in Hle.
  rewrite <- app_comm_cons.
  destruct (flag_key a) as [ka|] eqn:Hka.
  - rewrite !(cli_loop_flag a _ _ ka Hka).
    destruct pre as [|b pre]; cbn [app head tail].
    + unfold takes_next at 1 2. cbn [head]. rewrite Htok.
      rewrite !andb_false_r. unfold flag_value. cbn [head]. rewrite Htok. done.
    + destruct (takes_next a (Some b)).
      * apply IH. simpl in Hle. lia.
      * rewrite app_comm_cons. apply IH. simpl in *. lia.
  - assert (strings.HasPrefix a "--" = false) as Ha.
    { unfold flag_key in Hka. by destruct (strings.HasPrefix a "--"). }
    rewrite (cli_loop_skip a (pre ++ tok :: rest)), (cli_loop_skip a pre) by done.
    apply IH. lia.
Qed.

(** Tokens that do not assign [key] leave its entry alone. *)
Lemma cli_loop_other (key : string) (args : list string) (m : gmap string string) :
  Forall (λ t, flag_key t ≠ Some key) args →
  cli_loop args m !! key = m !! key.
Proof.
  remember (length args) as n eqn:Hn.
  assert (Hle : (length args ≤ n)%nat) by lia. clear Hn.
  revert args m Hle. induction n as [|n IH]; intros args m Hle Hall.
  { destruct args; [done | simpl in Hle; lia]. }
  destruct args as [|a args]; [done|]. simpl in Hle.
  apply Forall_cons in Hall as [Ha Hall].
  destruct (flag_key a) as [ka|] eqn:Hka.
  - rewrite (cli_loop_flag a _ _ ka Hka).
    assert (ka ≠ key) by congruence.
    destruct (takes_next a (head args)).
    + destruct args as [|b args]; cbn [tail].
      * simpl. by rewrite lookup_insert_ne.
      * apply Forall_cons in Hall as [_ Hall].
        rewrite IH; [by rewrite lookup_insert_ne | simpl in Hle; lia | done].
    + rewrite IH; [by rewrite lookup_insert_ne | lia | done].
  - assert (strings.HasPrefix a "--" = false) as Hp.
    { unfold flag_key in Hka. by destruct (strings.HasPrefix a "--"). }
    rewrite cli_loop_skip by done. apply IH; [lia | done].
Qed.

(** Every key of the map was assigned by a token starting with [--]. *)
Lemma cli_loop_keys (args : list string) (m : gmap string string) (key : string) :
  is_Some (cli_loop args m !! key) →
  is_Some (m !! key) ∨ ∃ tok, tok ∈ args ∧ flag_key tok = Some key.
Proof.
  destruct (decide (Exists (λ t, flag_key t = Some key) args)) as [Hex|Hno].
  - intros _. right. apply Exists_exists in Hex as (tok & ? & ?). eauto.
  - intros Hsome. left. rewrite cli_loop_other in Hsome; [done|].
    apply Forall_forall. intros t Ht Hk. apply Hno, Exists_exists. eauto.
Qed.

Lemma string_length_app (s t : string) :
  String.length (s +:+ t) = (String.length s + String.length t)%nat.
Proof. induction s as [|c s IH]; simpl; [done | by rewrite IH]. Qed.

Lemma append_cons (c : ascii) (s t : string) : String c s +:+ t = String c (s +:+ t).
Proof. reflexivity. Qed.

Lemma append_assoc (s t u : string) : (s +:+ t) +:+ u = s +:+ t +:+ u.
Proof. induction s as [|c s IH]; [done | by rewrite !append_cons, IH]. Qed.

Lemma flag_key_assign (key val : string) :
  strings.Index key "=" = -1 →
  flag_key ("--" +:+ key +:+ "=" +:+ val) = Some key ∧
  (∀ next, flag_value ("--" +:+ key +:+ "=" +:+ val) next = val) ∧
  (∀ next, takes_next ("--" +:+ key +:+ "=" +:+ val) next = false).
Proof.
  intros Hno. unfold flag_key, flag_value, takes_next.
  rewrite HasPrefix_app, TrimPrefix_app. unfold strings.Index at 1 2 3 4 5.
  rewrite (Index_key_eq key val 0 Hno). cbn [Nat.add].
  assert ((Z.of_nat (String.length key) =? -1) = false) as -> by (apply Z.eqb_neq; lia).
  rewrite Nat2Z.id. cbn [negb andb].
  replace (Z.to_nat (Z.of_nat (String.length key) + 1))
    with (String.length (key +:+ "=")).
  2:{ rewrite string_length_app. simpl. lia. }
  split_and!; [by rewrite slice_to_app | intros _ | done].
  by rewrite <- append_assoc, slice_from_app.
Qed.

Lemma flag_key_bare (key : string) :
  strings.Index key "=" = -1 →
  flag_key ("--" +:+ key) = Some key ∧
  (∀ next, flag_value ("--" +:+ key) next =
           match next with
           | Some n => if strings.HasPrefix n "--" then "true" else n
           | None => "true"
           end) ∧
  (∀ next, takes_next ("--" +:+ key) next =
           match next with
           | Some n => negb (strings.HasPrefix n "--")
           | None => false
           end).
Proof.
  intros Hno. unfold flag_key, flag_value, takes_next.
  rewrite HasPrefix_app, TrimPrefix_app, Hno. done.
Qed.

(** C2. The three token forms of the CLI adapter.  For a key without
    [=], wherever the token stands in the argument list: [--key=value]
    assigns to [key] all the text after the first [=], and parsing goes
    on with the next token; [--key] followed by a token that does not
    start with [--] assigns that token and parsing goes on after it;
    [--key] followed by a token that starts with [--], or by nothing,
    assigns ["true"].  The assignment is what [get] returns unless a
    later token assigns the key again, and every key of the resulting map
    was assigned by a token that starts with [--]. *)
Theorem newCLISource_token_forms (pre rest : list string) (key val next : string) :
  strings.Index key "=" = -1 →
  values (newCLISource (pre ++ ("--" +:+ key +:+ "=" +:+ val) :: rest))
    = cli_loop rest (<[key := val]> (values (newCLISource pre)))
  ∧ (strings.HasPrefix next "--" = false →
     values (newCLISource (pre ++ ("--" +:+ key) :: next :: rest))
       = cli_loop rest (<[key := next]> (values (newCLISource pre))))
  ∧ (strings.HasPrefix next "--" = true →
     values (newCLISource (pre ++ ("--" +:+ key) :: next :: rest))
       = cli_loop (next :: rest) (<[key := "true"]> (values (newCLISource pre))))
  ∧ values (newCLISource (pre ++ ["--" +:+ key]))
      = <[key := "true"]> (values (newCLISource pre))
  ∧ (∀ (later : list string) (m : gmap string string) (v : string),
       Forall (λ t, flag_key t ≠ Some key) later →
       cliSource_get {| values := cli_loop later (<[key := v]> m) |} key = VString v)
  ∧ (∀ (args : list string) (k : string),
       is_Some (values (newCLISource args) !! k) →
       ∃ tok, tok ∈ args ∧ strings.HasPrefix tok "--" = true ∧ flag_key tok = Some k).
Proof.
  intros Hno. cbn [values newCLISource].
  destruct (flag_key_assign key val Hno) as (Hk1 & Hv1 & Ht1).
  destruct (flag_key_bare key Hno) as (Hk2 & Hv2 & Ht2).
  split_and!.
  - rewrite cli_loop_app by (by eapply flag_key_prefix).
    by rewrite (cli_loop_flag _ _ _ key Hk1), Hv1, Ht1.
  - intros Hnext. rewrite cli_loop_app by (by eapply flag_key_prefix).
    rewrite (cli_loop_flag _ _ _ key Hk2), Hv2, Ht2. cbn [head tail].
    by rewrite Hnext.
  - intros Hnext. rewrite cli_loop_app by (by eapply flag_key_prefix).
    rewrite (cli_loop_flag _ _ _ key Hk2), Hv2, Ht2. cbn [head tail].
    by rewrite Hnext.
  - rewrite cli_loop_app by (by eapply flag_key_prefix).
    by rewrite (cli_loop_flag _ _ _ key Hk2), Hv2, Ht2.
  - intros later m v Hall. unfold cliSource_get. cbn [values].
    by rewrite cli_loop_other, lookup_insert_eq.
  - intros args k Hsome. apply cli_loop_keys in Hsome as [Hsome|(tok & ? & ?)].
    + rewrite lookup_empty in Hsome. by destruct Hsome.
    + exists tok. eauto using flag_key_prefix.
Qed.

Lemma newCLISource_token_forms_witness :
  strings.Index "db.host" "=" = -1 ∧
  values (newCLISource (["serve"; "-v"] ++ ("--" +:+ "db.host" +:+ "=" +:+ "a=b c") :: ["--x"]))
    = cli_loop ["--x"] (<["db.host" := "a=b c"]> (values (newCLISource ["serve"; "-v"]))).
Proof.
  split; [reflexivity|].
  apply (newCLISource_token_forms ["serve"; "-v"] ["--x"] "db.host" "a=b c" "").
  reflexivity.
Defined.

(** C3, as the code has it.  When a key is assigned more than once in
    the argument list, [get] returns the value of its last occurrence:
    the value of a flag token for [key] after which no token assigns
    [key], whatever stands before it. *)
Theorem newCLISource_last_occurrence_wins (pre rest : list string) (tok key : string) :
  flag_key tok = Some key →
  Forall (λ t, flag_key t ≠ Some key) rest →
  cliSource_get (newCLISource (pre ++ tok :: rest)) key
    = VString (flag_value tok (head rest)).
Proof.
  intros Hk Hall. unfold cliSource_get, newCLISource. cbn [values].
  rewrite cli_loop_app by (by eapply flag_key_prefix).
  rewrite (cli_loop_flag _ _ _ key Hk).
  rewrite cli_loop_other, lookup_insert_eq; [done|].
  destruct (takes_next tok (head rest)); [|done].
  destruct rest; [done|]. by apply Forall_cons in Hall as [_ ?].
Qed.

Lemma newCLISource_last_occurrence_wins_witness :
  flag_key "--k=b" = Some "k" ∧
  Forall (λ t, flag_key t ≠ Some "k") ["x"] ∧
  cliSource_get (newCLISource (["--k=a"] ++ "--k=b" :: ["x"])) "k"
    = VString (flag_value "--k=b" (head ["x"])).
Proof.
  assert (H1 : flag_key "--k=b" = Some "k") by reflexivity.
  assert (H2 : Forall (λ t, flag_key t ≠ Some "k") ["x"]).
  { repeat constructor. vm_compute. discriminate. }
  split; [exact H1|]. split; [exact H2|].
  exact (newCLISource_last_occurrence_wins ["--k=a"] ["x"] "--k=b" "k" H1 H2).
Defined.

(** C3, as stated, fails: with the key [k] given twice, [get] does not
    return the value of the first occurrence. *)
Lemma newCLISource_first_occurrence_lost :
  cliSource_get (newCLISource ["--k=a"; "--k=b"]) "k" = VString "b" ∧
  cliSource_get (newCLISource ["--k=a"; "--k=b"]) "k" ≠ VString "a".
Proof. split; [vm_compute; reflexivity | vm_compute; discriminate]. Qed.

(** ** Coercions: what they keep and what they return *)

Section CoercionFacts.
Context `{Runtime}.

Lemma coerced_ok {T : Type} (p : param T) (v : T) : coerced p (mark_set (assign p v), None).
Proof. by repeat split. Qed.

Lemma coerced_err {T : Type} (p : param T) (raw expected : string) (c : option cause) :
  coerced p (p, Some (ParseError (k p) raw expected c)).
Proof. repeat split; eauto. Qed.

Lemma coerced_fill_list {T A : Type} (zero : T) (expected : string)
    (conv : A → T + (string * option cause)) (p : param (list T)) (xs : list A) :
  coerced p (fill_list zero expected conv p xs).
Proof.
  unfold fill_list.
  destruct (range_fill conv xs 0 _) as [buf [[bad c]|]]; repeat split; eauto.
Qed.

Local Ltac coercion :=
  repeat first
    [ apply coerced_ok | apply coerced_err | apply coerced_fill_list
    | case_decide | case_match ].

Lemma StringParam_setFromString_coerced p s sep :
  coerced p (StringParam_setFromString p s sep).
Proof. unfold StringParam_setFromString. coercion. Qed.

Lemma StringParam_setFromAny_coerced p v sep :
  coerced p (StringParam_setFromAny p v sep).
Proof. unfold StringParam_setFromAny. destruct v; coercion. Qed.

Lemma IntParam_setFromString_coerced p s sep :
  coerced p (IntParam_setFromString p s sep).
Proof. unfold IntParam_setFromString. coercion. Qed.

Lemma IntParam_setFromAny_coerced p v sep :
  coerced p (IntParam_setFromAny p v sep).
Proof. unfold IntParam_setFromAny, IntParam_setFromString. coercion. Qed.

Lemma BoolParam_setFromString_coerced p s sep :
  coerced p (BoolParam_setFromString p s sep).
Proof. unfold BoolParam_setFromString. coercion. Qed.

Lemma BoolParam_setFromAny_coerced p v sep :
  coerced p (BoolParam_setFromAny p v sep).
Proof. unfold BoolParam_setFromAny, BoolParam_setFromString. coercion. Qed.

Lemma FloatParam_setFromString_coerced p s sep :
  coerced p (FloatParam_setFromString p s sep).
Proof. unfold FloatParam_setFromString. coercion. Qed.

Lemma FloatParam_setFromAny_coerced p v sep :
  coerced p (FloatParam_setFromAny p v sep).
Proof. unfold FloatParam_setFromAny, FloatParam_setFromString. coercion. Qed.

Lemma DurationParam_setFromString_coerced p s sep :
  coerced p (DurationParam_setFromString p s sep).
Proof. unfold DurationParam_setFromString. coercion. Qed.

Lemma DurationParam_setFromAny_coerced p v sep :
  coerced p (DurationParam_setFromAny p v sep).
Proof. unfold DurationParam_setFromAny, DurationParam_setFromString. coercion. Qed.

Lemma StringListParam_setFromString_coerced p s sep :
  coerced p (StringListParam_setFromString p s sep).
Proof. unfold StringListParam_setFromString. coercion. Qed.

Lemma StringListParam_setFromAny_coerced p v sep :
  coerced p (StringListParam_setFromAny p v sep).
Proof.
  unfold StringListParam_setFromAny.
  destruct v; auto using StringListParam_setFromString_coerced; coercion.
Qed.

Lemma IntListParam_setFromString_coerced p s sep :
  coerced p (IntListParam_setFromString p s sep).
Proof. unfold IntListParam_setFromString. coercion. Qed.

Lemma IntListParam_setFromAny_coerced p v sep :
  coerced p (IntListParam_setFromAny p v sep).
Proof.
  unfold IntListParam_setFromAny.
  destruct v; auto using IntListParam_setFromString_coerced; coercion.
Qed.

Lemma BoolListParam_setFromString_coerced p s sep :
  coerced p (BoolListParam_setFromString p s sep).
Proof. unfold BoolListParam_setFromString. coercion. Qed.

Lemma BoolListParam_setFromAny_coerced p v sep :
  coerced p (BoolListParam_setFromAny p v sep).
Proof.
  unfold BoolListParam_setFromAny.
  destruct v; auto using BoolListParam_setFromString_coerced; coercion.
Qed.

Lemma FloatListParam_setFromString_coerced p s sep :
  coerced p (FloatListParam_setFromString p s sep).
Proof. unfold FloatListParam_setFromString. coercion. Qed.

Lemma FloatListParam_setFromAny_coerced p v sep :
  coerced p (FloatListParam_setFromAny p v sep).
Proof.
  unfold FloatListParam_setFromAny.
  destruct v; auto using FloatListParam_setFromString_coerced; coercion.
Qed.

Lemma DurationListParam_setFromString_coerced p s sep :
  coerced p (DurationListParam_setFromString p s sep).
Proof. unfold DurationListParam_setFromString. coercion. Qed.

Lemma DurationListParam_setFromAny_coerced p v sep :
  coerced p (DurationListParam_setFromAny p v sep).
Proof.
  unfold DurationListParam_setFromAny.
  destruct v; auto using DurationListParam_setFromString_coerced; coercion.
Qed.

End CoercionFacts.

(** ** The [Param] interface *)

Section InterfaceFacts.
Context `{Runtime}.

Lemma rewrap_coerced {T : Type} (c : param T → Param) (p : param T)
    (r : param T * option error) :
  (∀ q, key (c q) = k q) → (∀ q, isRequired (c q) = required q) →
  (∀ q, hasDefault (c q) = hasDefVal q) → (∀ q, IsSet (c q) = set q) →
  coerced p r → Param_coerced (c p) (rewrap c r).
Proof.
  intros Hk Hr Hd Hs (? & ? & ? & _ & _ & Hres).
  unfold Param_coerced, rewrap. cbn [fst snd].
  rewrite !Hk, !Hr, !Hd, !Hs. by split_and!.
Qed.

Lemma setFromString_coerced (P : Param) (s sep : string) :
  Param_coerced P (setFromString P s sep).
Proof.
  destruct P; cbn [setFromString]; (apply rewrap_coerced; [done|done|done|done|]).
  - apply StringParam_setFromString_coerced.
  - apply IntParam_setFromString_coerced.
  - apply BoolParam_setFromString_coerced.
  - apply FloatParam_setFromString_coerced.
  - apply DurationParam_setFromString_coerced.
  - apply StringListParam_setFromString_coerced.
  - apply IntListParam_setFromString_coerced.
  - apply BoolListParam_setFromString_coerced.
  - apply FloatListParam_setFromString_coerced.
  - apply DurationListParam_setFromString_coerced.
Qed.

Lemma setFromAny_coerced (P : Param) (v : any) (sep : string) :
  Param_coerced P (setFromAny P v sep).
Proof.
  destruct P; cbn [setFromAny]; (apply rewrap_coerced; [done|done|done|done|]).
  - apply StringParam_setFromAny_coerced.
  - apply IntParam_setFromAny_coerced.
  - apply BoolParam_setFromAny_coerced.
  - apply FloatParam_setFromAny_coerced.
  - apply DurationParam_setFromAny_coerced.
  - apply StringListParam_setFromAny_coerced.
  - apply IntListParam_setFromAny_coerced.
  - apply BoolListParam_setFromAny_coerced.
  - apply FloatListParam_setFromAny_coerced.
  - apply DurationListParam_setFromAny_coerced.
Qed.

Lemma coerce_coerced (P : Param) (v : any) (sep : string) :
  Param_coerced P (coerce P v sep).
Proof.
  unfold coerce. destruct v; auto using setFromString_coerced, setFromAny_coerced.
Qed.

(** [loadParam], phase by phase. *)
Lemma loadParam_unfold (P : Param) (sources : list source) (opts : Options)
    (loadErr : list error) :
  loadParam P sources opts loadErr =
    let v := first_value sources (key P) in
    if is_nil v then (P, loadErr ++ checks P)
    else
      let r := coerce P v (ListSeparator opts) in
      match r.2 with
      | Some e => (r.1, loadErr ++ [e])
      | None => (r.1, loadErr ++ checks r.1)
      end.
Proof.
  unfold loadParam, checks, Add. cbn zeta.
  destruct (is_nil (first_value sources (key P))) eqn:Hnil; cbn [negb].
  - destruct (validate P), (isRequired P && negb (IsSet P) && negb (hasDefault P));
      by rewrite <- ?app_assoc, ?app_nil_r.
  - pose proof (coerce_coerced P (first_value sources (key P)) (ListSeparator opts))
      as (Hk & _).
    destruct (coerce P _ _) as [P' [e|]]; cbn [fst snd] in *; [done|].
    rewrite Hk.
    destruct (validate P'), (isRequired P' && negb (IsSet P') && negb (hasDefault P'));
      by rewrite <- ?app_assoc, ?app_nil_r.
Qed.

Lemma validate_is_ValidationError (P : Param) (err : error) :
  validate P = Some err → ∃ msg, err = ValidationError (key P) (Get P) msg.
Proof.
  destruct P; cbn [validate key Get]; unfold param_validate;
    destruct (first_failure _ _); naive_solver.
Qed.

End InterfaceFacts.

(** ** Coercion failures and the set flag *)

(** C10. For every parameter kind and every input, when [setFromString]
    or [setFromAny] returns an error, a parameter that was not set before
    the call is still not set after it. *)
Theorem failed_coercion_stays_unset `{Runtime} (P : Param) (s : string) (v : any)
    (sep : string) :
  IsSet P = false →
  (∀ e, (setFromString P s sep).2 = Some e → IsSet (setFromString P s sep).1 = false) ∧
  (∀ e, (setFromAny P v sep).2 = Some e → IsSet (setFromAny P v sep).1 = false).
Proof.
  intros Hunset. split; intros e He.
  - destruct (setFromString_coerced P s sep) as (_ & _ & _ & Hres).
    rewrite He in Hres. destruct Hres as [-> _]. done.
  - destruct (setFromAny_coerced P v sep) as (_ & _ & _ & Hres).
    rewrite He in Hres. destruct Hres as [-> _]. done.
Qed.

Lemma failed_coercion_stays_unset_witness :
  IsSet examples.port_param = false ∧
  (setFromString (H := demo.runtime) examples.port_param "abc" ",").2
    = Some (ParseError "port" "abc" "int" (Some (NumError "Atoi" "abc" strconv.ErrSyntax))) ∧
  IsSet (setFromString (H := demo.runtime) examples.port_param "abc" ",").1 = false.
Proof.
  split; [reflexivity|]. split; [reflexivity|].
  exact (proj1 (failed_coercion_stays_unset (H := demo.runtime) examples.port_param
                  "abc" VNil "," eq_refl) _ eq_refl).
Defined.

(** C6. For each of the five list kinds and every separator, coercing
    the empty string succeeds, stores the empty list (length zero, so not
    the one-element list holding the empty string) and sets the flag. *)
Theorem empty_text_is_empty_list `{Runtime} (sep : string) :
  (∀ p, let r := StringListParam_setFromString p "" sep in
        value r.1 = [] ∧ length (value r.1) = 0%nat ∧ value r.1 ≠ [""] ∧
        set r.1 = true ∧ r.2 = None) ∧
  (∀ p, let r := IntListParam_setFromString p "" sep in
        value r.1 = [] ∧ length (value r.1) = 0%nat ∧ set r.1 = true ∧ r.2 = None) ∧
  (∀ p, let r := BoolListParam_setFromString p "" sep in
        value r.1 = [] ∧ length (value r.1) = 0%nat ∧ set r.1 = true ∧ r.2 = None) ∧
  (∀ p, let r := FloatListParam_setFromString p "" sep in
        value r.1 = [] ∧ length (value r.1) = 0%nat ∧ set r.1 = true ∧ r.2 = None) ∧
  (∀ p, let r := DurationListParam_setFromString p "" sep in
        value r.1 = [] ∧ length (value r.1) = 0%nat ∧ set r.1 = true ∧ r.2 = None).
Proof. split_and!; intros p; cbv zeta; done. Qed.

(** ** Resolution of one parameter *)

(** C4. When the winning raw value fails coercion, [loadParam] adds
    exactly one error, the [ParseError] of the coercion, which names the
    parameter's key, and nothing else: no validation error and no
    required error, whatever the validators, the required flag and the
    default are. *)
Theorem loadParam_parse_failure `{Runtime} (P : Param) (sources : list source)
    (opts : Options) (loadErr : list error) (e : error) :
  first_value sources (key P) ≠ VNil →
  (coerce P (first_value sources (key P)) (ListSeparator opts)).2 = Some e →
  loadParam P sources opts loadErr
    = ((coerce P (first_value sources (key P)) (ListSeparator opts)).1, loadErr ++ [e])
  ∧ ∃ raw expected c, e = ParseError (key P) raw expected c.
Proof.
  intros Hv He. rewrite loadParam_unfold. cbv zeta.
  destruct (first_value sources (key P)) eqn:Hfv; try done; cbn [is_nil]; rewrite He;
    (split; [done|]);
    match type of He with
    | (coerce P ?v ?sep).2 = _ =>
        destruct (coerce_coerced P v sep) as (_ & _ & _ & Hres)
    end; rewrite He in Hres; by destruct Hres.
Qed.

Lemma loadParam_parse_failure_witness :
  first_value (examples.sources ["--port=abc"] "") (key examples.port_param) ≠ VNil ∧
  loadParam (H := demo.runtime) examples.port_param (examples.sources ["--port=abc"] "")
      (examples.options ["--port=abc"] "" "") []
    = (examples.port_param,
       [ParseError "port" "abc" "int" (Some (NumError "Atoi" "abc" strconv.ErrSyntax))]).
Proof.
  assert (Hv : first_value (examples.sources ["--port=abc"] "") (key examples.port_param)
               ≠ VNil) by (vm_compute; discriminate).
  split; [exact Hv|].
  exact (proj1 (loadParam_parse_failure (H := demo.runtime) examples.port_param
                  (examples.sources ["--port=abc"] "")
                  (examples.options ["--port=abc"] "" "") [] _ Hv eq_refl)).
Defined.

(** C5, as the code has it.  For a required parameter without default
    that is not set and for which no source has a value, [loadParam]
    adds exactly one [RequiredError] for its key and no [ParseError]; the
    validators still run on the current value, so a [ValidationError] for
    the key precedes it exactly when a validator rejects that value.  A
    parameter with a configured default never gets a [RequiredError]. *)
Theorem loadParam_required `{Runtime} (P : Param) (sources : list source)
    (opts : Options) (loadErr : list error) :
  (isRequired P = true → hasDefault P = false → IsSet P = false →
   first_value sources (key P) = VNil →
   loadParam P sources opts loadErr
     = (P, loadErr ++ match validate P with
                      | Some err => [err]
                      | None => []
                      end ++ [RequiredError (key P)])
   ∧ ∀ err, validate P = Some err → ∃ msg, err = ValidationError (key P) (Get P) msg)
  ∧ (hasDefault P = true →
     ∃ added, (loadParam P sources opts loadErr).2 = loadErr ++ added ∧
              Forall (λ e, is_RequiredError e = false) added).
Proof.
  split.
  - intros Hreq Hdef Hset Hnone. split; [|apply validate_is_ValidationError].
    rewrite loadParam_unfold. cbv zeta. rewrite Hnone. cbn [is_nil].
    unfold checks. by rewrite Hreq, Hdef, Hset.
  - intros Hdef. rewrite loadParam_unfold. cbv zeta.
    assert (Hchecks : ∀ Q, hasDefault Q = true →
              Forall (λ e, is_RequiredError e = false) (checks Q)).
    { intros Q HQ. unfold checks. rewrite HQ, andb_false_r, app_nil_r.
      destruct (validate Q) as [err|] eqn:Hval; [|done].
      apply validate_is_ValidationError in Hval as [msg ->]. by repeat constructor. }
    destruct (is_nil (first_value sources (key P))); [by eauto|].
    destruct (coerce_coerced P (first_value sources (key P)) (ListSeparator opts))
      as (_ & _ & Hd & Hres).
    destruct (coerce P _ _) as [P' [e|]]; cbn [fst snd] in *.
    + destruct Hres as (_ & raw & expected & c & ->).
      eexists. split; [done|]. by repeat constructor.
    + eexists. split; [done|]. apply Hchecks. congruence.
Qed.

Lemma loadParam_required_witness :
  isRequired examples.port_param = true ∧ hasDefault examples.port_param = false ∧
  IsSet examples.port_param = false ∧
  first_value (examples.sources [] "") (key examples.port_param) = VNil ∧
  loadParam (H := demo.runtime) examples.port_param (examples.sources [] "")
      (examples.options [] "" "") []
    = (examples.port_param, [RequiredError "port"]).
Proof.
  split; [reflexivity|]. split; [reflexivity|]. split; [reflexivity|].
  assert (Hnone : first_value (examples.sources [] "") (key examples.port_param) = VNil)
    by (vm_compute; reflexivity).
  split; [exact Hnone|].
  exact (proj1 (proj1 (loadParam_required (H := demo.runtime) examples.port_param
                         (examples.sources [] "") (examples.options [] "" "") [])
                  eq_refl eq_refl eq_refl Hnone)).
Defined.

(** C5, as stated, fails: a required parameter without default and
    without source value whose validator rejects the zero value gets a
    [ValidationError] for its key besides the [RequiredError]. *)
Lemma loadParam_required_also_validates :
  isRequired examples.name_param = true ∧ hasDefault examples.name_param = false ∧
  first_value (examples.sources [] "") (key examples.name_param) = VNil ∧
  (loadParam (H := demo.runtime) examples.name_param (examples.sources [] "")
      (examples.options [] "" "") []).2
    = [ValidationError "name" (VString "") "validation error: string must not be empty";
       RequiredError "name"].
Proof. split_and!; vm_compute; reflexivity. Qed.

(** ** The list loops *)

Section ListLoops.
Context `{Runtime} {T A : Type}.
Implicit Types (conv : A → T + (string * option cause)) (zero : T).

(** Elements that convert fill their slots and the loop goes on. *)
Lemma range_fill_app conv zero (pre rest : list A) (vs done : list T) (r : nat) :
  Forall2 (λ x v, conv x = inl v) pre vs →
  range_fill conv (pre ++ rest) (length done) (done ++ replicate (length pre + r) zero)
    = range_fill conv rest (length done + length pre) ((done ++ vs) ++ replicate r zero).
Proof.
  intros Hpre. revert done. induction Hpre as [|x v pre vs Hx _ IH]; intros done.
  - cbn [app length Nat.add]. by rewrite Nat.add_0_r, app_nil_r.
  - cbn [app length Nat.add range_fill]. rewrite Hx.
    replace (<[length done := v]> (done ++ replicate (S (length pre + r)) zero))
      with ((done ++ [v]) ++ replicate (length pre + r) zero).
    2:{ rewrite <- (Nat.add_0_r (length done)) at 1.
        rewrite insert_app_r. cbn. by rewrite <- app_assoc. }
    replace (S (length done)) with (length (done ++ [v]))
      by (rewrite length_app; cbn; lia).
    rewrite IH. rewrite length_app. cbn [length].
    rewrite <- !app_assoc. cbn [app]. f_equal. lia.
Qed.

Lemma fill_list_stops conv zero (expected : string) (p : param (list T))
    (pre : list A) (bad : A) (post : list A) (vs : list T) (t : string)
    (c : option cause) :
  Forall2 (λ x v, conv x = inl v) pre vs →
  conv bad = inr (t, c) →
  fill_list zero expected conv p (pre ++ bad :: post)
    = (assign p (vs ++ replicate (S (length post)) zero),
       Some (ParseError (k p) t expected c)).
Proof.
  intros Hpre Hbad. unfold fill_list. cbn [value assign k].
  rewrite length_app. cbn [length].
  pose proof (range_fill_app conv zero pre (bad :: post) vs [] (S (length post)) Hpre)
    as Hfill.
  cbn [app length Nat.add] in Hfill. rewrite Hfill.
  cbn [range_fill]. by rewrite Hbad.
Qed.

End ListLoops.

Section Malformed.
Context `{Runtime}.

Lemma text_loop_stops {T : Type} (parse : string → T + cause) (zero : T)
    (expected : string) (elem : string → T + (string * option cause))
    (setFromString : param (list T) → string → string → param (list T) * option error) :
  (∀ part, elem part = match parse (TrimSpace part) with
                       | inl v => inl v
                       | inr c => inr (part, Some c)
                       end) →
  (∀ p s sep, s ≠ "" → setFromString p s sep = fill_list zero expected elem p (Split s sep)) →
  stops_at_first_failure setFromString parse zero expected.
Proof.
  intros Helem Hset p s sep pre bad post vs c Hs Hsplit Hpre Hbad.
  rewrite Hset, Hsplit by done. apply fill_list_stops.
  - eapply Forall2_impl; [exact Hpre|]. intros x v Hx. cbn beta in Hx.
    by rewrite Helem, Hx.
  - by rewrite Helem, Hbad.
Qed.

(** C7, as the code has it.  For the four non-string list kinds and
    every non-empty input text whose split has a malformed element,
    coercion returns the [ParseError] whose value is the raw text of
    the first failing element and whose expected kind is the element
    kind; the elements after it are not looked at. *)
Theorem list_coercion_stops_at_first_failure :
  stops_at_first_failure IntListParam_setFromString parse_int 0 "int" ∧
  stops_at_first_failure BoolListParam_setFromString parse_bool false "bool" ∧
  stops_at_first_failure FloatListParam_setFromString ParseFloat 0 "float64" ∧
  stops_at_first_failure DurationListParam_setFromString ParseDuration 0 "duration".
Proof.
  split_and!.
  - apply (text_loop_stops _ _ _ int_elem).
    + intros part. unfold int_elem, parse_int. by destruct (strconv.Atoi _).
    + intros p s sep Hs. unfold IntListParam_setFromString. by rewrite decide_False.
  - apply (text_loop_stops _ _ _ bool_elem).
    + intros part. unfold bool_elem, parse_bool. by destruct (strconv.ParseBool _).
    + intros p s sep Hs. unfold BoolListParam_setFromString. by rewrite decide_False.
  - apply (text_loop_stops _ _ _ float_elem).
    + intros part. unfold float_elem. by destruct (ParseFloat _).
    + intros p s sep Hs. unfold FloatListParam_setFromString. by rewrite decide_False.
  - apply (text_loop_stops _ _ _ duration_elem).
    + intros part. unfold duration_elem. by destruct (ParseDuration _).
    + intros p s sep Hs. unfold DurationListParam_setFromString. by rewrite decide_False.
Qed.

End Malformed.

Lemma list_coercion_stops_at_first_failure_witness :
  "1,x,3" ≠ "" ∧
  Split (H := demo.runtime) "1,x,3" "," = ["1"] ++ "x" :: ["3"] ∧
  IntListParam_setFromString (H := demo.runtime) (Build []) "1,x,3" ","
    = (assign (Build []) [1; 0; 0],
       Some (ParseError "" "x" "int" (Some (NumError "Atoi" "x" strconv.ErrSyntax)))).
Proof.
  assert (Hs : "1,x,3" ≠ "") by discriminate.
  split; [exact Hs|]. split; [reflexivity|].
  refine (proj1 (list_coercion_stops_at_first_failure (H := demo.runtime))
            (Build []) "1,x,3" "," ["1"] "x" ["3"] [1] _ Hs eq_refl _ eq_refl).
  repeat constructor.
Defined.

(** C7, as stated, fails on the empty text: its split is the single
    element [""], which is not an integer, yet the coercion returns no
    error (it stores the empty list, see C6). *)
Lemma empty_text_malformed_element_no_error :
  Split (H := demo.runtime) "" "," = [""] ∧
  strconv.Atoi (TrimSpace (Runtime := demo.runtime) "") = inr strconv.ErrSyntax ∧
  (IntListParam_setFromString (H := demo.runtime) (Build []) "" ",").2 = None.
Proof. split_and!; reflexivity. Qed.

(** ** The schema walker *)

Section WalkerFacts.
Context `{Runtime}.

Lemma field_key_dotted (prefix tag : string) : field_key prefix tag = dotted prefix tag.
Proof.
  unfold field_key, dotted.
  destruct (decide (prefix = "")) as [->|Hp], (decide (tag = "")) as [->|Ht];
    repeat (case_bool_decide || case_decide); cbn [negb andb]; try done; tauto.
Qed.

Lemma assign_keys_app (ks1 ks2 : list (nat * string)) (h : store) :
  assign_keys (ks1 ++ ks2) h = assign_keys ks2 (assign_keys ks1 h).
Proof. apply fold_left_app. Qed.

Lemma setKeyAt_lookup_ne (a b : nat) (key : string) (h : store) :
  a ≠ b → setKeyAt a key h !! b = h !! b.
Proof. intros. unfold setKeyAt. by apply list_lookup_alter_ne. Qed.

Lemma assign_keys_other (ks : list (nat * string)) (h : store) (a : nat) :
  a ∉ ks.*1 → assign_keys ks h !! a = h !! a.
Proof.
  revert h. induction ks as [|[b key] ks IH]; intros h Hnot; [done|].
  cbn [fmap list_fmap fst] in Hnot. apply not_elem_of_cons in Hnot as [Hne Hnot].
  unfold assign_keys in *. cbn [fold_left fst snd].
  rewrite IH by done. by apply setKeyAt_lookup_ne.
Qed.


(** One round of the loop adds what the specification discovers under
    the field. *)
Lemma field_step_discovered (f : field) :
  ∀ (prefix : string) (st : list nat * store),
    field_step prefix f st
      = (st.1 ++ (discovered prefix f).*1, assign_keys (discovered prefix f) st.2).
Proof.
  induction f as [tag anon a|tag anon fields IH|tag anon] using field_nested_ind;
    intros prefix [params h]; cbn [field_step discovered fst snd].
  - destruct anon, (decide (tag = "")) as [->|?];
      repeat (case_bool_decide || case_decide); cbn [andb negb] in *;
      try tauto; try (by destruct_and?); rewrite ?field_key_dotted, ?app_nil_r; done.
  - assert (Hfold : ∀ key st0,
              fold_left (λ st' f', field_step key f' st') fields st0
              = (st0.1 ++ (flat_map (discovered key) fields).*1,
                 assign_keys (flat_map (discovered key) fields) st0.2)).
    { intros key. induction IH as [|f fs Hf _ IHfs]; intros [ps0 h0].
      - cbn. by rewrite app_nil_r.
      - cbn [fold_left flat_map]. rewrite Hf, IHfs. cbn [fst snd].
        by rewrite fmap_app, assign_keys_app, app_assoc. }
    destruct anon, (decide (tag = "")) as [->|?];
      repeat (case_bool_decide || case_decide); cbn [andb negb] in *;
      try tauto; try (by destruct_and?); rewrite ?Hfold, ?field_key_dotted, ?app_nil_r; done.
  - destruct anon, (decide (tag = "")) as [->|?];
      repeat (case_bool_decide || case_decide); cbn [andb negb] in *;
      try tauto; try (by destruct_and?); rewrite ?app_nil_r; done.
Qed.

Lemma collectParams_discovered (fields : list field) (prefix : string) (h : store) :
  collectParams (Struct fields) prefix h
    = ((flat_map (discovered prefix) fields).*1,
       assign_keys (flat_map (discovered prefix) fields) h).
Proof.
  cbn [collectParams].
  assert (Hfold : ∀ st0,
            fold_left (λ st f, field_step prefix f st) fields st0
            = (st0.1 ++ (flat_map (discovered prefix) fields).*1,
               assign_keys (flat_map (discovered prefix) fields) st0.2)).
  { induction fields as [|f fs IHfs]; intros [ps0 h0].
    - cbn. by rewrite app_nil_r.
    - cbn [fold_left flat_map]. rewrite field_step_discovered, IHfs. cbn [fst snd].
      by rewrite fmap_app, assign_keys_app, app_assoc. }
  by rewrite Hfold.
Qed.


End WalkerFacts.


(** ** The file source and the fatal error of a load *)

Section FileSource.
Context `{Runtime}.

Lemma genSplit_not_nil (fuel : nat) (s sep : string) : strings.genSplit fuel s sep ≠ [].
Proof.
  destruct fuel; cbn [strings.genSplit]; [done|].
  by destruct (strings.Index s sep <? 0).
Qed.

Lemma empty_tree_absent (key : string) : yamlSource_get {| data := ∅ |} key = VNil.
Proof.
  unfold yamlSource_get, Split. rewrite decide_False by done. cbn [data].
  pose proof (genSplit_not_nil (String.length key) key ".") as Hne.
  destruct (strings.genSplit _ _ _) as [|part parts]; [done|].
  cbn [yaml_walk]. by rewrite lookup_empty.
Qed.

(** C9. With an empty path, or a file that does not exist, the file
    source is built without error, holds the empty tree and has no
    value for any key.  When the file is read but does not decode,
    [newYAMLSource] returns the decoder's error, and [Loader.Load]
    returns that very error, which is not a [LoadError], with every
    parameter cell as it was before the call.  When the source is built,
    the load returns nil or a [LoadError]. *)
Theorem file_source_absent_or_fatal :
  newYAMLSource "" = inl {| data := ∅ |}
  ∧ (∀ filename err,
       ReadFile filename = inr err → os_not_exist err = true →
       newYAMLSource filename = inl {| data := ∅ |})
  ∧ (∀ key, get (yaml_source {| data := ∅ |}) key = VNil)
  ∧ (∀ filename content msg,
       filename ≠ "" → ReadFile filename = inl content → Unmarshal content = inr msg →
       newYAMLSource filename = inr (YamlError msg))
  ∧ (∀ filename err, newYAMLSource filename = inr err → is_LoadError err = false)
  ∧ (∀ (l : Loader) (h : store) (err : error),
       newYAMLSource (config_file (default_separator (opts l))) = inr err →
       Loader_Load l h = (h, Some err))
  ∧ (∀ (l : Loader) (h : store) (yamlSrc : yamlSource),
       newYAMLSource (config_file (default_separator (opts l))) = inl yamlSrc →
       (Loader_Load l h).2 = None ∨ ∃ errs, (Loader_Load l h).2 = Some (LoadError errs)).
Proof.
  split_and!.
  - done.
  - intros filename err Hread Hne. unfold newYAMLSource.
    case_decide; [done|]. by rewrite Hread, Hne.
  - intros key. apply empty_tree_absent.
  - intros filename content msg Hname Hread Hdec. unfold newYAMLSource.
    rewrite decide_False by done. by rewrite Hread, Hdec.
  - intros filename err. unfold newYAMLSource. case_decide; [done|].
    destruct (ReadFile filename) as [content|e].
    + destruct (Unmarshal content); [done|]. by intros [= <-].
    + destruct (os_not_exist e); [done|]. by intros [= <-].
  - intros l h err Hsrc. unfold Loader_Load. cbv zeta. by rewrite Hsrc.
- intros l h yamlSrc Hsrc. unfold Loader_Load. cbv zeta. rewrite Hsrc.
  destruct (collectAllParams l h) as [params h1].
  destruct (fold_left _ params (h1, [])) as [h2 errs].
  destruct (HasErrors errs); cbn [snd]; eauto.
Qed.

End FileSource.

Lemma file_source_absent_or_fatal_witness :
  newYAMLSource (H := demo.runtime)
      (config_file (H := demo.runtime)
         (default_separator (opts (examples.loader ["--name=x"] "broken.yaml" ""))))
    = inr (YamlError "yaml: line 1: did not find expected node content") ∧
  Loader_Load (H := demo.runtime) (examples.loader ["--name=x"] "broken.yaml" "") examples.cells
    = (examples.cells, Some (YamlError "yaml: line 1: did not find expected node content")).
Proof.
  assert (Hsrc : newYAMLSource (H := demo.runtime)
            (config_file (H := demo.runtime)
               (default_separator (opts (examples.loader ["--name=x"] "broken.yaml" ""))))
          = inr (YamlError "yaml: line 1: did not find expected node content"))
    by (vm_compute; reflexivity).
  split; [exact Hsrc|].
  exact (proj1 (proj2 (proj2 (proj2 (proj2 (proj2
            (file_source_absent_or_fatal (H := demo.runtime)))))))
           (examples.loader ["--name=x"] "broken.yaml" "") examples.cells _ Hsrc).
Defined.

(** ** Source priority *)

Section Priority.
Context `{Runtime}.

(** The cell [loadParam] leaves does not depend on the errors collected
    so far. *)
Lemma loadParam_cell (P : Param) (sources : list source) (opts : Options)
    (loadErr : list error) :
  (loadParam P sources opts loadErr).1
    = if is_nil (first_value sources (key P)) then P
      else (coerce P (first_value sources (key P)) (ListSeparator opts)).1.
Proof.
  rewrite loadParam_unfold. cbv zeta.
  destruct (is_nil _); [done|]. by destruct (coerce P _ _).2.
Qed.

Lemma load_loop_other (a : nat) (params : list nat) (sources : list source)
    (opts : Options) (st : store * list error) :
  a ∉ params →
  (fold_left (λ st p, loadParamAt p sources opts st) params st).1 !! a = st.1 !! a.
Proof.
  revert st. induction params as [|b params IH]; intros st Hnot; [done|].
  apply not_elem_of_cons in Hnot as [Hne Hnot]. cbn [fold_left].
  rewrite IH by done. unfold loadParamAt.
  destruct (st.1 !! b); [|done]. cbn [fst]. by rewrite list_lookup_insert_ne.
Qed.




End Priority.


(** * Further properties of the package *)

(** ** The CLI adapter: keys that no token assigns *)

(** A key that no token of the argument list assigns is absent, and an
    argument list without any token starting with [--] gives the empty
    map. *)
Theorem newCLISource_absent (args : list string) :
  (∀ key, Forall (λ t, flag_key t ≠ Some key) args →
          cliSource_get (newCLISource args) key = VNil)
  ∧ (Forall (λ t, strings.HasPrefix t "--" = false) args →
     values (newCLISource args) = ∅).
Proof.
  split.
  - intros key Hall. unfold cliSource_get, newCLISource. cbn [values].
    by rewrite cli_loop_other, lookup_empty.
  - intros Hall. cbn [newCLISource values]. apply map_eq. intros key.
    rewrite cli_loop_other; [done|].
    eapply Forall_impl; [exact Hall|]. intros t Ht. cbn beta in Ht.
    unfold flag_key. by rewrite Ht.
Qed.

Lemma newCLISource_absent_witness :
  Forall (λ t, strings.HasPrefix t "--" = false) ["serve"; "-v"; "x=y"] ∧
  values (newCLISource ["serve"; "-v"; "x=y"]) = ∅.
Proof.
  assert (Hall : Forall (λ t, strings.HasPrefix t "--" = false) ["serve"; "-v"; "x=y"])
    by (repeat constructor).
  split; [exact Hall|].
  exact (proj2 (newCLISource_absent ["serve"; "-v"; "x=y"]) Hall).
Defined.

(** ** Splitting on a one-byte separator *)

Lemma Index_char_app (c : ascii) (key val : string) (i : nat) :
  strings.Index key (String c "") = -1 →
  strings.index_from i (key +:+ String c val) (String c "") = Z.of_nat (i + String.length key).
Proof.
  unfold strings.Index. revert i. induction key as [|d key IH]; intros i Hno.
  - change ("" +:+ String c val) with (String c val).
    cbn [strings.index_from strings.HasPrefix String.length].
    rewrite decide_True by done. f_equal. lia.
  - rewrite append_cons. cbn [strings.index_from strings.HasPrefix String.length] in *.
    destruct (decide (c = d)) as [Heq|Hc]; [done|].
    rewrite IH; [f_equal; lia|].
    destruct (index_from_shift (String c "") key 1) as [[_ ?]|[? Heq]]; [done | lia].
Qed.

Lemma Index_char_cases (c : ascii) (s : string) :
  strings.Index s (String c "") = -1 ∨
  ∃ pre post, s = pre +:+ String c post ∧ strings.Index pre (String c "") = -1.
Proof.
  induction s as [|d s IH].
  - by left.
  - destruct (decide (c = d)) as [<-|Hc].
    + right. by exists "", s.
    + destruct IH as [Hno|(pre & post & -> & Hpre)].
      * left. unfold strings.Index in *.
        cbn [strings.index_from strings.HasPrefix]. rewrite decide_False by done.
        destruct (index_from_shift (String c "") s 1) as [[? _]|[? ?]]; [done | lia].
      * right. exists (String d pre), post. split; [done|].
        unfold strings.Index in *.
        cbn [strings.index_from strings.HasPrefix]. rewrite decide_False by done.
        destruct (index_from_shift (String c "") pre 1) as [[? _]|[? ?]]; [done | lia].
Qed.

Lemma genSplit_none (c : ascii) (fuel : nat) (s : string) :
  strings.Index s (String c "") = -1 → strings.genSplit fuel s (String c "") = [s].
Proof. intros Hno. destruct fuel; [done|]. cbn [strings.genSplit]. by rewrite Hno. Qed.

Lemma genSplit_cut (c : ascii) (fuel : nat) (pre post : string) :
  strings.Index pre (String c "") = -1 →
  strings.genSplit (S fuel) (pre +:+ String c post) (String c "")
    = pre :: strings.genSplit fuel post (String c "").
Proof.
  intros Hpre. cbn [strings.genSplit]. unfold strings.Index at 1 2 3.
  rewrite (Index_char_app c pre post 0 Hpre). cbn [Nat.add].
  assert ((Z.of_nat (String.length pre) <? 0) = false) as -> by (apply Z.ltb_ge; lia).
  rewrite Nat2Z.id, slice_to_app. f_equal. f_equal.
  replace (String.length pre + String.length (String c ""))%nat
    with (String.length (pre +:+ String c "")) by (by rewrite string_length_app).
  replace (pre +:+ String c post) with ((pre +:+ String c "") +:+ post)
    by (by rewrite append_assoc).
  apply slice_from_app.
Qed.

(** More fuel than the length of the text changes nothing. *)
Lemma genSplit_fuel2 (c : ascii) (f1 f2 : nat) (s : string) :
  (String.length s ≤ f1)%nat → (String.length s ≤ f2)%nat →
  strings.genSplit f1 s (String c "") = strings.genSplit f2 s (String c "").
Proof.
  revert f2 s. induction f1 as [|f1 IH]; intros f2 s H1 H2.
  { destruct s; [|simpl in H1; lia]. by rewrite !genSplit_none. }
  destruct (Index_char_cases c s) as [Hno|(pre & post & -> & Hpre)].
  - by rewrite !genSplit_none.
  - rewrite string_length_app in *. cbn [String.length] in *.
    destruct f2 as [|f2]; [lia|].
    rewrite !genSplit_cut by done. f_equal. apply IH; lia.
Qed.

Lemma genSplit_fuel (c : ascii) (fuel : nat) (s : string) :
  (String.length s ≤ fuel)%nat →
  strings.genSplit fuel s (String c "") = strings.genSplit (String.length s) s (String c "").
Proof. intros. by apply genSplit_fuel2. Qed.

Lemma genSplit_app_fuel (c : ascii) (b : string) (n : nat) :
  ∀ (a : string) (fuel : nat),
    (String.length a ≤ n)%nat →
    (String.length (a +:+ String c b) ≤ fuel)%nat →
    strings.genSplit fuel (a +:+ String c b) (String c "")
      = strings.genSplit fuel a (String c "") ++ strings.genSplit fuel b (String c "").
Proof.
  induction n as [|n IH]; intros a fuel Hn Hfuel;
    rewrite string_length_app in Hfuel; cbn [String.length] in Hfuel;
    (destruct fuel as [|fuel]; [lia|]);
    destruct (Index_char_cases c a) as [Hno|(pre & post & -> & Hpre)].
  - rewrite genSplit_cut, (genSplit_none c _ a) by done. cbn [app]. f_equal.
    apply genSplit_fuel2; lia.
  - rewrite string_length_app in Hn. cbn [String.length] in Hn. lia.
  - rewrite genSplit_cut, (genSplit_none c _ a) by done. cbn [app]. f_equal.
    apply genSplit_fuel2; lia.
  - rewrite string_length_app in Hn, Hfuel. cbn [String.length] in Hn, Hfuel.
    rewrite append_assoc, append_cons, !genSplit_cut by done. cbn [app]. f_equal.
    rewrite IH; [|lia|rewrite string_length_app; cbn [String.length]; lia].
    f_equal. apply genSplit_fuel2; lia.
Qed.

Lemma genSplit_app (c : ascii) (a b : string) :
  strings.genSplit (String.length (a +:+ String c b)) (a +:+ String c b) (String c "")
    = strings.genSplit (String.length a) a (String c "")
      ++ strings.genSplit (String.length b) b (String c "").
Proof.
  rewrite (genSplit_app_fuel c b (String.length a)) by lia.
  rewrite string_length_app. cbn [String.length].
  f_equal; apply genSplit_fuel2; lia.
Qed.

(** ** The file source: dotted keys walk nested maps *)

Lemma yaml_walk_nil (parts : list string) : yaml_walk parts VNil = VNil.
Proof. by destruct parts. Qed.

Lemma yaml_walk_app (parts1 parts2 : list string) (current : any) :
  yaml_walk (parts1 ++ parts2) current = yaml_walk parts2 (yaml_walk parts1 current).
Proof.
  revert current. induction parts1 as [|part parts1 IH]; intros current; [done|].
  cbn [app yaml_walk].
  destruct current; try (by rewrite yaml_walk_nil).
  destruct (m !! part); [apply IH | by rewrite yaml_walk_nil].
Qed.

Lemma yaml_walk_not_map (parts : list string) (current : any) :
  parts ≠ [] → (∀ m, current ≠ VMap m) → yaml_walk parts current = VNil.
Proof.
  intros Hparts Hmap. destruct parts as [|part parts]; [done|].
  cbn [yaml_walk]. destruct current; try done. by destruct (Hmap m).
Qed.

(** The lookup of [a.b] is the lookup of [b] in the map found at [a];
    when [a] is missing or holds anything but a map, [a.b] is absent. *)
Theorem yamlSource_get_nested `{Runtime} (s : yamlSource) (a b : string) :
  yamlSource_get s (a +:+ "." +:+ b)
    = match yamlSource_get s a with
      | VMap m => yamlSource_get {| data := m |} b
      | _ => VNil
      end.
Proof.
  unfold yamlSource_get, Split. rewrite !decide_False by done.
  change ("." +:+ b) with (String "."%char b).
  rewrite (genSplit_app "."%char a b), yaml_walk_app.
  pose proof (genSplit_not_nil (String.length b) b ".") as Hne.
  destruct (yaml_walk (strings.genSplit (String.length a) a ".") (VMap (data s)));
    try (by apply yaml_walk_not_map); done.
Qed.

(** A key without dot is one hit in the top-level map, so that a value
    stored under it is read back and storing under another key does not
    disturb it. *)
Theorem yamlSource_get_top_level `{Runtime} (m : gmap string any) (key : string) :
  strings.Index key "." = -1 →
  yamlSource_get {| data := m |} key = default VNil (m !! key)
  ∧ (∀ v, yamlSource_get {| data := <[key := v]> m |} key = v)
  ∧ (∀ other v, other ≠ key →
       yamlSource_get {| data := <[other := v]> m |} key = yamlSource_get {| data := m |} key).
Proof.
  intros Hno.
  assert (Hget : ∀ m', yamlSource_get {| data := m' |} key = default VNil (m' !! key)).
  { intros m'. unfold yamlSource_get, Split. rewrite decide_False by done.
    rewrite (genSplit_none "."%char) by done. cbn [yaml_walk data].
    by destruct (m' !! key). }
  split_and!.
  - apply Hget.
  - intros v. by rewrite Hget, lookup_insert_eq.
  - intros other v Hne. by rewrite !Hget, lookup_insert_ne.
Qed.

Lemma yamlSource_get_top_level_witness :
  strings.Index "name" "." = -1 ∧
  yamlSource_get (H := demo.runtime) {| data := <["name" := VInt 7]> ∅ |} "name" = VInt 7.
Proof.
  split; [reflexivity|].
  exact (proj1 (proj2 (yamlSource_get_top_level (H := demo.runtime) ∅ "name" eq_refl))
           (VInt 7)).
Defined.

(** ** The environment source: dots and underscores *)

Lemma ReplaceAll1_dot_idem (key : string) :
  strings.ReplaceAll1 (strings.ReplaceAll1 key "."%char "_") "."%char "_"
    = strings.ReplaceAll1 key "."%char "_".
Proof.
  induction key as [|c key IH]; [done|].
  cbn [strings.ReplaceAll1]. destruct (decide (c = "."%char)) as [->|Hc].
  - change ("_" +:+ strings.ReplaceAll1 key "." "_")
      with (String "_"%char (strings.ReplaceAll1 key "." "_")).
    cbn [strings.ReplaceAll1]. rewrite decide_False by done. by rewrite IH.
  - cbn [strings.ReplaceAll1]. rewrite decide_False by done. by rewrite IH.
Qed.

(** The environment source cannot tell a dot from an underscore: a key
    and the key with every [.] written [_] read the same variable. *)
Theorem envSource_get_underscore `{Runtime} (s : envSource) (key : string) :
  envSource_get s (strings.ReplaceAll1 key "."%char "_") = envSource_get s key.
Proof. unfold envSource_get. by rewrite ReplaceAll1_dot_idem. Qed.

(** ** Coercions: failure of a scalar, strings from the file, lists *)

(** A scalar coercion that fails leaves the cell exactly as it was, so
    a default stays in place. *)
Theorem scalar_failure_keeps_cell `{Runtime} (P : Param) (s : string) (v : any)
    (sep : string) :
  is_scalar P = true →
  ((setFromString P s sep).2 ≠ None → (setFromString P s sep).1 = P) ∧
  ((setFromAny P v sep).2 ≠ None → (setFromAny P v sep).1 = P).
Proof.
  intros Hs. destruct P; try done; cbn [setFromString setFromAny]; unfold rewrap;
    cbn [fst snd].
  - unfold IntParam_setFromAny, IntParam_setFromString.
    split; [|destruct v]; by repeat case_match.
  - unfold BoolParam_setFromAny, BoolParam_setFromString.
    split; [|destruct v]; by repeat case_match.
  - unfold FloatParam_setFromAny, FloatParam_setFromString.
    split; [|destruct v]; by repeat case_match.
  - unfold DurationParam_setFromAny, DurationParam_setFromString.
    split; [|destruct v]; by repeat case_match.
Qed.

Lemma scalar_failure_keeps_cell_witness :
  is_scalar examples.port_param = true ∧
  (setFromString (H := demo.runtime) examples.port_param "8o8o" ",").2 ≠ None ∧
  (setFromString (H := demo.runtime) examples.port_param "8o8o" ",").1 = examples.port_param.
Proof.
  assert (Herr : (setFromString (H := demo.runtime) examples.port_param "8o8o" ",").2 ≠ None)
    by (vm_compute; discriminate).
  split; [reflexivity|]. split; [exact Herr|].
  exact (proj1 (scalar_failure_keeps_cell (H := demo.runtime) examples.port_param
                  "8o8o" VNil "," eq_refl) Herr).
Defined.

(** Whatever a coercion does, it keeps the key, the required flag and
    the default flag; when it succeeds the parameter is set, and when it
    fails the error is a [ParseError] for the parameter's key. *)
Theorem coercion_keeps_declaration `{Runtime} (P : Param) (s : string) (v : any)
    (sep : string) :
  Param_coerced P (setFromString P s sep) ∧ Param_coerced P (setFromAny P v sep).
Proof. split; [apply setFromString_coerced | apply setFromAny_coerced]. Qed.

(** A string handed to [setFromAny] is coerced exactly as the same text
    handed to [setFromString], for every kind. *)
Theorem setFromAny_string `{Runtime} (P : Param) (s sep : string) :
  setFromAny P (VString s) sep = setFromString P s sep.
Proof. by destruct P. Qed.

Section ListSuccess.
Context `{Runtime}.

Lemma fill_list_all {T A : Type} (conv : A → T + (string * option cause)) (zero : T)
    (expected : string) (p : param (list T)) (xs : list A) (vs : list T) :
  Forall2 (λ x v, conv x = inl v) xs vs →
  fill_list zero expected conv p xs = (mark_set (assign p vs), None).
Proof.
  intros Hall. unfold fill_list. cbn [value assign].
  pose proof (range_fill_app conv zero xs [] vs [] 0 Hall) as Hfill.
  rewrite app_nil_r, Nat.add_0_r in Hfill. cbn [app length] in Hfill.
  rewrite Hfill. cbn [range_fill]. by rewrite app_nil_r.
Qed.

Lemma text_loop_all {T : Type} (parse : string → T + cause) (zero : T)
    (expected : string) (elem : string → T + (string * option cause))
    (setFromString : param (list T) → string → string → param (list T) * option error) :
  (∀ part, elem part = match parse (TrimSpace part) with
                       | inl v => inl v
                       | inr c => inr (part, Some c)
                       end) →
  (∀ p s sep, s ≠ "" → setFromString p s sep = fill_list zero expected elem p (Split s sep)) →
  parses_all setFromString parse.
Proof.
  intros Helem Hset p s sep vs Hs Hall. rewrite Hset by done. apply fill_list_all.
  eapply Forall2_impl; [exact Hall|]. intros x v Hx. cbn beta in Hx. by rewrite Helem, Hx.
Qed.

(** For the four non-string list kinds, a non-empty text all of whose
    elements parse is stored element by element, trimmed, in order. *)
Theorem list_coercion_parses_all :
  parses_all IntListParam_setFromString parse_int ∧
  parses_all BoolListParam_setFromString parse_bool ∧
  parses_all FloatListParam_setFromString ParseFloat ∧
  parses_all DurationListParam_setFromString ParseDuration.
Proof.
  split_and!.
  - apply (text_loop_all _ 0 "int" int_elem).
    + intros part. unfold int_elem, parse_int. by destruct (strconv.Atoi _).
    + intros p s sep Hs. unfold IntListParam_setFromString. by rewrite decide_False.
  - apply (text_loop_all _ false "bool" bool_elem).
    + intros part. unfold bool_elem, parse_bool. by destruct (strconv.ParseBool _).
    + intros p s sep Hs. unfold BoolListParam_setFromString. by rewrite decide_False.
  - apply (text_loop_all _ 0 "float64" float_elem).
    + intros part. unfold float_elem. by destruct (ParseFloat _).
    + intros p s sep Hs. unfold FloatListParam_setFromString. by rewrite decide_False.
  - apply (text_loop_all _ 0 "duration" duration_elem).
    + intros part. unfold duration_elem. by destruct (ParseDuration _).
    + intros p s sep Hs. unfold DurationListParam_setFromString. by rewrite decide_False.
Qed.

(** For the four non-string list kinds, a [[]any] is converted item by
    item and the first item that does not convert ends the coercion. *)
Theorem list_items_stop_at_first_failure :
  items_stop_at_first_failure IntListParam_setFromAny int_item 0 "int" ∧
  items_stop_at_first_failure BoolListParam_setFromAny bool_item false "bool" ∧
  items_stop_at_first_failure FloatListParam_setFromAny float_item 0 "float64" ∧
  items_stop_at_first_failure DurationListParam_setFromAny duration_item 0 "duration".
Proof.
  split_and!; intros p sep pre bad post vs t c Hpre Hbad; cbn; by apply fill_list_stops.
Qed.

End ListSuccess.

Lemma list_coercion_parses_all_witness :
  "8080, 9090" ≠ "" ∧
  IntListParam_setFromString (H := demo.runtime) (Build []) "8080, 9090" ","
    = (mark_set (assign (Build []) [8080; 9090]), None).
Proof.
  assert (Hs : "8080, 9090" ≠ "") by discriminate.
  split; [exact Hs|].
  refine (proj1 (list_coercion_parses_all (H := demo.runtime))
            (Build []) "8080, 9090" "," [8080; 9090] Hs _).
  repeat constructor.
Defined.

Lemma list_items_stop_at_first_failure_witness :
  int_item (H := demo.runtime) (VString "5") = inr ("5", None) ∧
  IntListParam_setFromAny (H := demo.runtime) (Build []) (VSlice ([VInt 1] ++ VString "5" :: [VInt 3])) ","
    = (assign (Build []) ([1] ++ replicate 2 0), Some (ParseError "" "5" "int" None)).
Proof.
  split; [reflexivity|].
  refine (proj1 (list_items_stop_at_first_failure (H := demo.runtime))
            (Build []) "," [VInt 1] (VString "5") [VInt 3] [1] "5" None _ eq_refl).
  repeat constructor.
Defined.

(** ** Validation *)

Lemma first_failure_none {T : Type} (vs : list (T → option string)) (v : T) :
  first_failure vs v = None ↔ Forall (λ g, g v = None) vs.
Proof.
  induction vs as [|f vs IH]; cbn [first_failure].
  - split; [constructor | done].
  - destruct (f v) as [msg|] eqn:Hf.
    + split; [done|]. intros Hall. apply Forall_cons in Hall as [Hfv _]. congruence.
    + rewrite IH. split; [by constructor|]. intros Hall. by apply Forall_cons in Hall as [_ ?].
Qed.

Lemma first_failure_app {T : Type} (vs1 vs2 : list (T → option string)) (v : T) :
  Forall (λ g, g v = None) vs1 → first_failure (vs1 ++ vs2) v = first_failure vs2 v.
Proof.
  induction 1 as [|g vs1 Hg _ IH]; [done|]. cbn [app first_failure]. by rewrite Hg.
Qed.

(** [validate] reports the first validator, in the order they were
    attached, that rejects the current value, with that validator's
    message and the current value; what the validators after it would
    say does not matter.  It returns nil exactly when every validator
    accepts the value. *)
Theorem validate_first_failure (P : Param) :
  (∀ {T : Type} (box : T → any) (p : param T) vs1 f vs2 msg,
     validators p = vs1 ++ f :: vs2 →
     Forall (λ g, g (value p) = None) vs1 →
     f (value p) = Some msg →
     param_validate box p = Some (ValidationError (k p) (box (value p)) msg))
  ∧ (∀ {T : Type} (box : T → any) (p : param T),
       param_validate box p = None ↔ Forall (λ g, g (value p) = None) (validators p))
  ∧ (∀ err, validate P = Some err → ∃ msg, err = ValidationError (key P) (Get P) msg).
Proof.
  split_and!.
  - intros T box p vs1 f vs2 msg Hvs Hpre Hf. unfold param_validate.
    rewrite Hvs, first_failure_app by done. cbn [first_failure]. by rewrite Hf.
  - intros T box p. unfold param_validate. rewrite <- first_failure_none.
    by destruct (first_failure _ _).
  - apply validate_is_ValidationError.
Qed.

Lemma validate_first_failure_witness :
  validate
      (PString (Validate (λ _, Some "second") (Validate NotEmpty (Validate (λ _, None) (Build "")))))
    = Some (ValidationError "" (VString "") "validation error: string must not be empty").
Proof.
  refine (proj1 (validate_first_failure examples.port_param)
            string VString
            (Validate (λ _, Some "second") (Validate NotEmpty (Validate (λ _, None) (Build ""))))
            [λ _, None] NotEmpty [λ _, Some "second"] _ eq_refl _ eq_refl).
  by repeat constructor.
Defined.

(** ** Resolution of one parameter, continued *)

Section Resolution.
Context `{Runtime}.

Lemma checks_keys (P : Param) : Forall (λ e, error_key e = Some (key P)) (checks P).
Proof.
  unfold checks. apply Forall_app. split.
  - destruct (validate P) as [err|] eqn:Hval; [|done].
    apply validate_is_ValidationError in Hval as [msg ->]. by repeat constructor.
  - destruct (isRequired P && negb (IsSet P) && negb (hasDefault P)); by repeat constructor.
Qed.

Lemma checks_length (P : Param) : (length (checks P) ≤ 2)%nat.
Proof.
  unfold checks. rewrite length_app.
  destruct (validate P), (isRequired P && negb (IsSet P) && negb (hasDefault P)); cbn; lia.
Qed.

(** When a source has a value and its coercion succeeds, the value is
    stored and the parameter set even if a validator then rejects it:
    the only error [loadParam] can add is the [ValidationError], and a
    [RequiredError] is never added. *)
Theorem loadParam_supplied (P : Param) (sources : list source) (opts : Options)
    (loadErr : list error) :
  first_value sources (key P) ≠ VNil →
  (coerce P (first_value sources (key P)) (ListSeparator opts)).2 = None →
  loadParam P sources opts loadErr
    = ((coerce P (first_value sources (key P)) (ListSeparator opts)).1,
       loadErr ++ match validate (coerce P (first_value sources (key P))
                                    (ListSeparator opts)).1 with
                  | Some err => [err]
                  | None => []
                  end)
  ∧ IsSet (loadParam P sources opts loadErr).1 = true.
Proof.
  intros Hv Hok.
  pose proof (coerce_coerced P (first_value sources (key P)) (ListSeparator opts))
    as (_ & _ & _ & Hset).
  rewrite Hok in Hset.
  rewrite loadParam_unfold. cbv zeta.
  destruct (is_nil (first_value sources (key P))) eqn:Hnil.
  { by destruct (first_value sources (key P)). }
  rewrite Hok. cbn [fst]. split; [|done].
  unfold checks. rewrite Hset. cbn [negb andb]. by rewrite andb_false_r, app_nil_r.
Qed.

Lemma loadParam_appends_aux (P : Param) (sources : list source) (opts : Options)
    (loadErr : list error) :
  (loadParam P sources opts loadErr).2 = loadErr ++ param_errors P sources opts
  ∧ (length (param_errors P sources opts) ≤ 2)%nat
  ∧ Forall (λ e, error_key e = Some (key P)) (param_errors P sources opts)
  ∧ key (loadParam P sources opts loadErr).1 = key P
  ∧ isRequired (loadParam P sources opts loadErr).1 = isRequired P
  ∧ hasDefault (loadParam P sources opts loadErr).1 = hasDefault P.
Proof.
  unfold param_errors. rewrite !loadParam_unfold. cbv zeta.
  destruct (is_nil (first_value sources (key P))).
  { cbn [fst snd app]. split_and!; auto using checks_keys, checks_length. }
  pose proof (coerce_coerced P (first_value sources (key P)) (ListSeparator opts))
    as (Hk & Hr & Hd & Hres).
  destruct (coerce P _ _) as [P' [e|]]; cbn [fst snd app] in *.
  - destruct Hres as (_ & raw & expected & c & ->).
    split_and!; try done; [cbn; lia | by repeat constructor].
  - split_and!; try done; [apply checks_length | rewrite <- Hk; apply checks_keys].
Qed.

(** [loadParam] only appends to the errors collected so far: at most
    two records, each for the parameter's own key; and it leaves the
    key, the required flag and the default flag of the cell alone. *)
Theorem loadParam_appends (P : Param) (sources : list source) (opts : Options)
    (loadErr : list error) :
  (loadParam P sources opts loadErr).2 = loadErr ++ param_errors P sources opts
  ∧ (length (param_errors P sources opts) ≤ 2)%nat
  ∧ Forall (λ e, error_key e = Some (key P)) (param_errors P sources opts)
  ∧ key (loadParam P sources opts loadErr).1 = key P
  ∧ isRequired (loadParam P sources opts loadErr).1 = isRequired P
  ∧ hasDefault (loadParam P sources opts loadErr).1 = hasDefault P.
Proof. apply loadParam_appends_aux. Qed.

(** When [loadParam] adds no error, every validator accepts the value
    the cell now holds, and a required parameter has a value from a
    source or a configured default. *)
Theorem loadParam_clean (P : Param) (sources : list source) (opts : Options)
    (loadErr : list error) :
  (loadParam P sources opts loadErr).2 = loadErr →
  validate (loadParam P sources opts loadErr).1 = None
  ∧ (isRequired P = true →
     IsSet (loadParam P sources opts loadErr).1 = true ∨ hasDefault P = true).
Proof.
  rewrite loadParam_unfold. cbv zeta.
  assert (Hclean : ∀ Q, checks Q = [] →
            validate Q = None ∧ (isRequired Q = true → IsSet Q = true ∨ hasDefault Q = true)).
  { intros Q. unfold checks. destruct (validate Q); [done|]. cbn [app].
    destruct (isRequired Q), (IsSet Q), (hasDefault Q); cbn; intros; split; auto; done. }
  assert (Happ : ∀ added : list error, loadErr ++ added = loadErr → added = []).
  { intros added Heq. apply (f_equal length) in Heq. rewrite length_app in Heq.
    destruct added; [done | cbn in Heq; lia]. }
  destruct (is_nil (first_value sources (key P))); cbn [fst snd].
  { intros Heq. by apply Hclean, Happ. }
  pose proof (coerce_coerced P (first_value sources (key P)) (ListSeparator opts))
    as (_ & Hr & Hd & _).
  destruct (coerce P _ _) as [P' [e|]]; cbn [fst snd] in *; intros Heq.
  - by apply Happ in Heq.
  - apply Happ, Hclean in Heq as [Hval Hreq]. split; [done|].
    rewrite <- Hr, <- Hd. exact Hreq.
Qed.

End Resolution.

Lemma loadParam_supplied_witness :
  first_value (examples.sources ["--name="] "") (key examples.name_param) ≠ VNil ∧
  loadParam (H := demo.runtime) examples.name_param (examples.sources ["--name="] "")
      (examples.options ["--name="] "" "") []
    = ((setFromString (H := demo.runtime) examples.name_param "" ",").1,
       [ValidationError "name" (VString "") "validation error: string must not be empty"]).
Proof.
  assert (Hv : first_value (examples.sources ["--name="] "") (key examples.name_param)
               ≠ VNil) by (vm_compute; discriminate).
  split; [exact Hv|].
  exact (proj1 (loadParam_supplied (H := demo.runtime) examples.name_param
                  (examples.sources ["--name="] "")
                  (examples.options ["--name="] "" "") [] Hv eq_refl)).
Defined.

Lemma loadParam_clean_witness :
  (loadParam (H := demo.runtime) examples.host_param (examples.sources [] "")
     (examples.options [] "" "") []).2 = [] ∧
  validate
    (loadParam (H := demo.runtime) examples.host_param (examples.sources [] "")
       (examples.options [] "" "") []).1 = None.
Proof.
  assert (Hclean : (loadParam (H := demo.runtime) examples.host_param (examples.sources [] "")
                      (examples.options [] "" "") []).2 = []) by (vm_compute; reflexivity).
  split; [exact Hclean|].
  exact (proj1 (loadParam_clean (H := demo.runtime) examples.host_param
                  (examples.sources [] "") (examples.options [] "" "") [] Hclean)).
Defined.

(** ** The schema walker, continued *)

Lemma setKey_setKey (P : Param) (k1 k2 : string) : setKey (setKey P k1) k2 = setKey P k2.
Proof. by destruct P. Qed.

Lemma setKey_keeps (P : Param) (key : string) :
  Get (setKey P key) = Get P ∧ IsSet (setKey P key) = IsSet P ∧
  isRequired (setKey P key) = isRequired P ∧ hasDefault (setKey P key) = hasDefault P.
Proof. by destruct P. Qed.

Lemma assign_keys_lookup_all (ks : list (nat * string)) (h : store) (i : nat) :
  assign_keys ks h !! i = apply_keys ks i <$> h !! i.
Proof.
  revert h. induction ks as [|[a key] ks IH]; intros h.
  { cbn. by destruct (h !! i). }
  change (assign_keys ((a, key) :: ks) h) with (assign_keys ks (setKeyAt a key h)).
  rewrite IH. unfold setKeyAt, apply_keys. cbn [fold_left fst snd].
  destruct (decide (a = i)) as [->|Hne].
  - rewrite list_lookup_alter_eq. by destruct (h !! i).
  - by rewrite list_lookup_alter_ne.
Qed.

Lemma assign_keys_length (ks : list (nat * string)) (h : store) :
  length (assign_keys ks h) = length h.
Proof.
  revert h. induction ks as [|[a key] ks IH]; intros h; [done|].
  change (assign_keys ((a, key) :: ks) h) with (assign_keys ks (setKeyAt a key h)).
  rewrite IH. unfold setKeyAt. apply length_alter.
Qed.

Lemma apply_keys_snoc (ks : list (nat * string)) (a : nat) (key : string) (i : nat)
    (P : Param) :
  apply_keys (ks ++ [(a, key)]) i P
    = if decide (a = i) then setKey (apply_keys ks i P) key else apply_keys ks i P.
Proof. unfold apply_keys. by rewrite fold_left_app. Qed.

Lemma setKey_apply_keys (ks : list (nat * string)) (i : nat) (P : Param) (key : string) :
  setKey (apply_keys ks i P) key = setKey P key.
Proof.
  revert P. induction ks as [|[a ka] ks IH]; intros P; [done|].
  unfold apply_keys in *. cbn [fold_left fst snd].
  rewrite IH. destruct (decide (a = i)); [apply setKey_setKey | done].
Qed.

Lemma apply_keys_cases (ks : list (nat * string)) (i : nat) (P : Param) :
  apply_keys ks i P = P ∨ ∃ key, apply_keys ks i P = setKey P key.
Proof.
  induction ks as [|[a key] ks IH] using rev_ind; [by left|].
  rewrite apply_keys_snoc. destruct (decide (a = i)); [|done].
  right. exists key. apply setKey_apply_keys.
Qed.

Lemma apply_keys_idem (ks : list (nat * string)) (i : nat) (P : Param) :
  apply_keys ks i (apply_keys ks i P) = apply_keys ks i P.
Proof.
  induction ks as [|[a key] ks IH] using rev_ind; [done|].
  rewrite !apply_keys_snoc. destruct (decide (a = i)); [|done].
  by rewrite !setKey_apply_keys, setKey_setKey.
Qed.

Lemma assign_keys_idem (ks : list (nat * string)) (h : store) :
  assign_keys ks (assign_keys ks h) = assign_keys ks h.
Proof.
  apply list_eq. intros i. rewrite !assign_keys_lookup_all.
  destruct (h !! i) as [P|]; [|done]. cbn. by rewrite apply_keys_idem.
Qed.

Lemma collectParams_assign (v : reflect_value) (prefix : string) :
  ∃ ks, ∀ h', collectParams v prefix h' = (ks.*1, assign_keys ks h').
Proof.
  destruct v as [fields|].
  - exists (flat_map (discovered prefix) fields). intros h'.
    apply collectParams_discovered.
  - by exists [].
Qed.

(** Walking a schema again changes nothing: the same parameters are
    returned and every cell already has the key the walk assigns. *)
Theorem collectParams_rewalk (v : reflect_value) (prefix : string) (h : store) :
  collectParams v prefix (collectParams v prefix h).2 = collectParams v prefix h.
Proof.
  destruct (collectParams_assign v prefix) as [ks Hks].
  rewrite !Hks. cbn [snd]. by rewrite assign_keys_idem.
Qed.

(** The walker touches nothing but keys: the store keeps its length, a
    cell it does not return is unchanged, and every cell keeps its value,
    its set flag, its required flag and its default flag. *)
Theorem collectParams_only_keys (v : reflect_value) (prefix : string) (h : store) :
  length (collectParams v prefix h).2 = length h
  ∧ (∀ a, a ∉ (collectParams v prefix h).1 → (collectParams v prefix h).2 !! a = h !! a)
  ∧ (∀ a P, h !! a = Some P →
       ∃ P', (collectParams v prefix h).2 !! a = Some P' ∧
             Get P' = Get P ∧ IsSet P' = IsSet P ∧
             isRequired P' = isRequired P ∧ hasDefault P' = hasDefault P).
Proof.
  destruct (collectParams_assign v prefix) as [ks Hks]. rewrite !Hks. cbn [fst snd].
  split_and!.
  - apply assign_keys_length.
  - intros a Ha. by apply assign_keys_other.
  - intros a P Hcell. rewrite assign_keys_lookup_all, Hcell. cbn.
    eexists. split; [done|].
    destruct (apply_keys_cases ks a P) as [->|[key ->]]; [done | apply setKey_keeps].
Qed.

Lemma collectParams_only_keys_witness :
  examples.cells !! 2%nat = Some (PInt (Default 5432 (Build 0))) ∧
  ∃ P', (collectParams (Struct examples.config_fields) "app" examples.cells).2 !! 2%nat
        = Some P' ∧ Get P' = VInt 5432.
Proof.
  split; [reflexivity|].
  destruct (proj2 (proj2 (collectParams_only_keys (Struct examples.config_fields) "app"
                            examples.cells)) 2%nat _ eq_refl)
    as (P' & Hcell & Hget & _).
  exists P'. split; [exact Hcell | exact Hget].
Defined.

(** ** Registrations *)

Lemma collectAllParams_fold (regs : list registration) (st : list nat * store) :
  fold_left
    (λ st r, let got := collectParams (cfg r) (reg_prefix r) st.2 in (st.1 ++ got.1, got.2))
    regs st
  = (st.1 ++ (discovered_regs regs).*1, assign_keys (discovered_regs regs) st.2).
Proof.
  unfold discovered_regs.
  revert st. induction regs as [|r regs IH]; intros [ps h].
  - cbn. by rewrite app_nil_r.
  - cbn [fold_left flat_map]. rewrite IH. cbn [fst snd].
    rewrite fmap_app, assign_keys_app, app_assoc.
    destruct (cfg r) as [fields|]; [by rewrite collectParams_discovered|].
    cbn. by rewrite app_nil_r.
Qed.

Lemma collectAllParams_discovered (l : Loader) (h : store) :
  collectAllParams l h = ((discovered_all l).*1, assign_keys (discovered_all l) h).
Proof. unfold collectAllParams. by rewrite collectAllParams_fold. Qed.

(** Registrations are walked in the order of the [Register] calls: the
    parameters of a newly registered struct come after those already
    registered, and a loader without registrations discovers nothing. *)
Theorem Register_appends (l : Loader) (prefix : string) (cfg : reflect_value) (h : store)
    (o : Options) :
  collectAllParams (Register l prefix cfg) h
    = ((collectAllParams l h).1 ++ (collectParams cfg prefix (collectAllParams l h).2).1,
       (collectParams cfg prefix (collectAllParams l h).2).2)
  ∧ collectAllParams (NewLoader o) h = ([], h).
Proof.
  split; [|done]. unfold collectAllParams, Register. cbn [registrations].
  by rewrite fold_left_app.
Qed.

(** ** A whole load *)

Section WholeLoad.
Context `{Runtime}.

Lemma cell_errors_insert (h : store) (sources : list source) (opts : Options)
    (a b : nat) (Q : Param) :
  a ≠ b → cell_errors (<[a := Q]> h) sources opts b = cell_errors h sources opts b.
Proof. intros Hne. unfold cell_errors. by rewrite list_lookup_insert_ne. Qed.

Lemma flat_map_agree {A B : Type} (f g : A → list B) (l : list A) :
  (∀ x, x ∈ l → f x = g x) → flat_map f l = flat_map g l.
Proof.
  induction l as [|x l IH]; intros Hfg; [done|]. cbn [flat_map].
  rewrite Hfg by apply list_elem_of_here. f_equal. apply IH.
  intros y Hy. apply Hfg. by apply list_elem_of_further.
Qed.

Lemma load_loop_errors (params : list nat) (sources : list source) (opts : Options)
    (st : store * list error) :
  NoDup params →
  (fold_left (λ st p, loadParamAt p sources opts st) params st).2
    = st.2 ++ flat_map (cell_errors st.1 sources opts) params.
Proof.
  revert st. induction params as [|a params IH]; intros [h errs] Hnd.
  { cbn. by rewrite app_nil_r. }
  apply NoDup_cons in Hnd as [Ha Hnd]. cbn [fold_left flat_map].
  rewrite IH by done. unfold loadParamAt, cell_errors at 2. cbn [fst snd].
  destruct (h !! a) as [P|] eqn:Hcell; cbn [fst snd].
  - rewrite (proj1 (loadParam_appends_aux P sources opts errs)), <- app_assoc.
    f_equal. f_equal. apply flat_map_agree.
    intros b Hb. apply cell_errors_insert. by intros ->.
  - done.
Qed.

Lemma load_loop_keeps (params : list nat) (sources : list source) (opts : Options)
    (st : store * list error) :
  length (fold_left (λ st p, loadParamAt p sources opts st) params st).1 = length st.1
  ∧ ∀ i P, st.1 !! i = Some P →
      ∃ P', (fold_left (λ st p, loadParamAt p sources opts st) params st).1 !! i = Some P'
            ∧ key P' = key P ∧ isRequired P' = isRequired P ∧ hasDefault P' = hasDefault P.
Proof.
  revert st. induction params as [|a params IH]; intros [h errs].
  { split; [done|]. intros i P Hi. by exists P. }
  cbn [fold_left]. destruct (IH (loadParamAt a sources opts (h, errs))) as [Hlen Hcells].
  unfold loadParamAt in *. cbn [fst snd] in *.
  destruct (h !! a) as [Q|] eqn:Hcell; cbn [fst snd] in *.
  - split; [by rewrite Hlen, length_insert|].
    intros i P Hi.
    pose proof (loadParam_appends_aux Q sources opts errs) as (_ & _ & _ & Hk & Hr & Hd).
    destruct (decide (a = i)) as [->|Hne].
    + destruct (Hcells i (loadParam Q sources opts errs).1) as (P' & HP' & ? & ? & ?).
      { apply list_lookup_insert_eq. by eapply lookup_lt_Some. }
      exists P'. rewrite Hcell in Hi. injection Hi as <-.
      split; [done|]. split_and!; congruence.
    + apply Hcells. by rewrite list_lookup_insert_ne.
  - by split.
Qed.

(** Every discovered parameter is resolved, whatever happens to the
    others: when the file source is built and the discovered cells are
    distinct, the errors of the load are the errors of each parameter in
    walk order, and the load returns nil exactly when there is none (a
    returned [LoadError] is never empty). *)
Theorem Load_collects_all_errors (l : Loader) (h : store) (yamlSrc : yamlSource) :
  newYAMLSource (config_file (default_separator (opts l))) = inl yamlSrc →
  NoDup (collectAllParams l h).1 →
  (Loader_Load l h).2
    = match flat_map (cell_errors (collectAllParams l h).2
                        (sources_of (default_separator (opts l)) yamlSrc)
                        (default_separator (opts l)))
              (collectAllParams l h).1 with
      | [] => None
      | errs => Some (LoadError errs)
      end.
Proof.
  intros Hsrc Hnd. unfold Loader_Load. cbv zeta. rewrite Hsrc.
  destruct (collectAllParams l h) as [params h1]. cbn [fst snd] in *.
  pose proof (load_loop_errors params
                (sources_of (default_separator (opts l)) yamlSrc)
                (default_separator (opts l)) (h1, []) Hnd) as Herrs.
  destruct (fold_left _ params (h1, [])) as [h2 errs]. cbn [fst snd app] in Herrs.
  rewrite <- Herrs. by destruct errs.
Qed.

(** A load keeps the store in shape: its length is unchanged, a cell
    that no registration discovers is untouched, and every cell keeps its
    required flag and its default flag. *)
Theorem Load_keeps_store (l : Loader) (h : store) :
  length (Loader_Load l h).1 = length h
  ∧ (∀ a, a ∉ (collectAllParams l h).1 → (Loader_Load l h).1 !! a = h !! a)
  ∧ (∀ a P, h !! a = Some P →
       ∃ P', (Loader_Load l h).1 !! a = Some P' ∧
             isRequired P' = isRequired P ∧ hasDefault P' = hasDefault P).
Proof.
  unfold Loader_Load. cbv zeta.
  destruct (newYAMLSource _) as [yamlSrc|err]; cbn [fst].
  2:{ split_and!; [done | done | intros a P Hcell; by exists P]. }
  rewrite collectAllParams_discovered. cbn [fst snd].
  set (ks := discovered_all l).
  set (sources := sources_of _ yamlSrc). set (o := default_separator (opts l)).
  pose proof (load_loop_keeps ks.*1 sources o (assign_keys ks h, [])) as [Hlen Hcells].
  pose proof (load_loop_other) as Hother.
  destruct (fold_left _ ks.*1 (assign_keys ks h, [])) as [h2 errs] eqn:Hfold.
  cbn [fst snd] in *.
  assert (Hres : ∀ e : option error,
            (let '(h0, loadErr) := (h2, errs) in
             if HasErrors loadErr then (h0, Some (LoadError loadErr)) else (h0, e)).1 = h2).
  { intros e. cbn. by destruct (HasErrors errs). }
  rewrite Hres. split_and!.
  - by rewrite Hlen, assign_keys_length.
  - intros a Ha.
    specialize (Hother a ks.*1 sources o (assign_keys ks h, []) Ha).
    rewrite Hfold in Hother. cbn [fst] in Hother.
    by rewrite Hother, assign_keys_other.
  - intros a P Hcell.
    destruct (Hcells a (apply_keys ks a P)) as (P' & HP' & _ & Hr & Hd).
    { by rewrite assign_keys_lookup_all, Hcell. }
    exists P'. split; [done|].
    destruct (apply_keys_cases ks a P) as [Heq|[key Heq]]; rewrite Heq in Hr, Hd;
      [done|].
    pose proof (setKey_keeps P key) as (_ & _ & ? & ?). split; congruence.
Qed.

(** Leaving [ListSeparator] empty is the same as setting it to [,]. *)
Theorem Load_default_separator (l : Loader) (h : store) :
  ListSeparator (opts l) = "" →
  Loader_Load l h
    = Loader_Load {| opts := with_ListSeparator (opts l) ",";
                     registrations := registrations l |} h.
Proof.
  intros Hsep. unfold Loader_Load. cbn [opts].
  assert (default_separator (opts l) = with_ListSeparator (opts l) ",") as ->.
  { unfold default_separator. by rewrite bool_decide_eq_true_2. }
  assert (default_separator (with_ListSeparator (opts l) ",")
          = with_ListSeparator (opts l) ",") as -> by done.
  done.
Qed.

End WholeLoad.

Lemma Load_collects_all_errors_witness :
  (Loader_Load (H := demo.runtime) (examples.loader ["--db.port=http"] "" "") examples.cells).2
    = Some (LoadError
              [ParseError "db.port" "http" "int"
                 (Some (NumError "Atoi" "http" strconv.ErrSyntax))]).
Proof.
  assert (Hnd : NoDup (collectAllParams (examples.loader ["--db.port=http"] "" "")
                         examples.cells).1).
  { apply NoDup_ListNoDup. cbv. repeat constructor; intros Hin; cbn in Hin; lia. }
  rewrite (Load_collects_all_errors (H := demo.runtime)
             (examples.loader ["--db.port=http"] "" "") examples.cells
             {| data := ∅ |} eq_refl Hnd).
  vm_compute. reflexivity.
Defined.

Lemma Load_keeps_store_witness :
  examples.cells !! 1%nat = Some (PString (Default "localhost" (Build ""))) ∧
  ∃ P', (Loader_Load (H := demo.runtime) (examples.loader ["--db.host=h"] "" "")
           examples.cells).1 !! 1%nat = Some P' ∧ hasDefault P' = true.
Proof.
  split; [reflexivity|].
  destruct (proj2 (proj2 (Load_keeps_store (H := demo.runtime)
                            (examples.loader ["--db.host=h"] "" "") examples.cells))
              1%nat _ eq_refl) as (P' & Hcell & _ & Hd).
  exists P'. split; [exact Hcell | exact Hd].
Defined.

Lemma Load_default_separator_witness :
  Loader_Load (H := demo.runtime)
      {| opts := with_ListSeparator (examples.options ["--name=a"] "" "") "";
         registrations := [{| reg_prefix := ""; cfg := Struct examples.config_fields |}] |}
      examples.cells
    = Loader_Load (H := demo.runtime) (examples.loader ["--name=a"] "" "") examples.cells.
Proof.
  exact (Load_default_separator (H := demo.runtime)
           {| opts := with_ListSeparator (examples.options ["--name=a"] "" "") "";
              registrations := [{| reg_prefix := ""; cfg := Struct examples.config_fields |}] |}
           examples.cells eq_refl).
Defined.

(** ** Finding the configuration file *)

(** [FindConfigFile] returns the first candidate that exists after
    expansion, in its expanded form, and the empty string when there is
    none.  An explicit [ConfigFile] is used as it is written, without
    expansion and whatever [ConfigPaths] holds; with neither, no file is
    read. *)
Theorem FindConfigFile_first_existing `{Runtime} (paths : list string) :
  FindConfigFile paths = default "" (head (filter (λ q, Stat q = true) (expand_path <$> paths)))
  ∧ (FindConfigFile paths = "" ∨ Stat (FindConfigFile paths) = true)
  ∧ (∀ o, ConfigFile o ≠ "" → config_file o = ConfigFile o)
  ∧ (∀ o, ConfigFile o = "" → ConfigPaths o = [] →
          config_file o = "" ∧ newYAMLSource (config_file o) = inl {| data := ∅ |}).
Proof.
  assert (Hfirst : FindConfigFile paths
            = default "" (head (filter (λ q, Stat q = true) (expand_path <$> paths)))).
  { induction paths as [|p paths IH]; [done|].
    cbn [FindConfigFile fmap list_fmap]. fold (expand_path p).
    rewrite filter_cons. destruct (decide (Stat (expand_path p) = true)) as [Hs|Hs].
    - by rewrite Hs.
    - apply not_true_is_false in Hs. by rewrite Hs. }
  split_and!.
  - exact Hfirst.
  - rewrite Hfirst.
    destruct (filter _ _) as [|q qs] eqn:Hf; [by left|]. right. cbn.
    assert (q ∈ filter (λ q, Stat q = true) (expand_path <$> paths)) as Hq
      by (rewrite Hf; apply list_elem_of_here).
    by apply list_elem_of_filter in Hq as [? _].
  - intros o Hfile. unfold config_file. by rewrite bool_decide_eq_false_2.
  - intros o Hfile Hpaths. unfold config_file. rewrite Hpaths.
    rewrite (bool_decide_eq_false_2 (0 < length [])%nat) by (cbn; lia).
    rewrite andb_false_r, Hfile. done.
Qed.

Lemma FindConfigFile_first_existing_witness :
  FindConfigFile (H := demo.runtime) ["missing.yaml"; "config.yaml"; "broken.yaml"]
    = "config.yaml".
Proof.
  rewrite (proj1 (FindConfigFile_first_existing (H := demo.runtime)
                    ["missing.yaml"; "config.yaml"; "broken.yaml"])).
  vm_compute. reflexivity.
Defined.

(** ** Validators *)

(** What the built-in validators accept: [Range(lo, hi)] the values
    from [lo] to [hi] (none when [hi < lo]), [Positive] the values above
    zero, [NonNegative] those from zero, [MinLen] and [MaxLen] the
    strings by their byte length, [MinItems] and [MaxItems] the lists by
    their length; [NotEmpty] accepts what [MinLen(1)] accepts. *)
Theorem validators_accept :
  (∀ lo hi v, Range lo hi v = None ↔ lo ≤ v ≤ hi)
  ∧ (∀ lo hi v, hi < lo → Range lo hi v ≠ None)
  ∧ (∀ v, Positive v = None ↔ 0 < v)
  ∧ (∀ v, NonNegative v = None ↔ 0 ≤ v)
  ∧ (∀ n v, MinLen n v = None ↔ n ≤ Z.of_nat (String.length v))
  ∧ (∀ n v, MaxLen n v = None ↔ Z.of_nat (String.length v) ≤ n)
  ∧ (∀ (T : Type) n (v : list T), MinItems n v = None ↔ n ≤ Z.of_nat (length v))
  ∧ (∀ (T : Type) n (v : list T), MaxItems n v = None ↔ Z.of_nat (length v) ≤ n)
  ∧ (∀ v, NotEmpty v = None ↔ MinLen 1 v = None).
Proof.
  split_and!.
  - intros lo hi v. unfold Range.
    destruct (v <? lo) eqn:H1, (hi <? v) eqn:H2; cbn [orb]; split; try done; lia.
  - intros lo hi v Hlt. unfold Range.
    destruct (v <? lo) eqn:H1, (hi <? v) eqn:H2; cbn [orb]; try done; lia.
  - intros v. unfold Positive. destruct (v <=? 0) eqn:H1; split; try done; lia.
  - intros v. unfold NonNegative. destruct (v <? 0) eqn:H1; split; try done; lia.
  - intros n v. unfold MinLen. destruct (_ <? n) eqn:H1; split; try done; lia.
  - intros n v. unfold MaxLen. destruct (n <? _) eqn:H1; split; try done; lia.
  - intros T n v. unfold MinItems. destruct (_ <? n) eqn:H1; split; try done; lia.
  - intros T n v. unfold MaxItems. destruct (n <? _) eqn:H1; split; try done; lia.
  - intros v. unfold NotEmpty, MinLen. destruct v as [|c v]; cbn [String.length].
    + rewrite decide_True by done. by split.
    + rewrite decide_False by done.
      assert ((Z.of_nat (S (String.length v)) <? 1) = false) as -> by (apply Z.ltb_ge; lia).
      done.
Qed.

Lemma validators_accept_witness : Range 1 65535 8080 = None.
Proof. apply (proj1 validators_accept 1 65535 8080). lia. Defined.

(** ** Validators after a load *)

Section CleanLoad.
Context `{Runtime}.

Lemma loadParam_PInt (p : IntParam) (sources : list source) (opts : Options)
    (loadErr : list error) :
  ∃ p', (loadParam (PInt p) sources opts loadErr).1 = PInt p' ∧ validators p' = validators p.
Proof.
  rewrite loadParam_cell. destruct (is_nil _); [by exists p|].
  unfold coerce.
  destruct (first_value sources (key (PInt p))) eqn:Hv; cbn [setFromString setFromAny];
    unfold rewrap; cbn [fst];
    first [ destruct (IntParam_setFromString_coerced p s (ListSeparator opts))
              as (_ & _ & _ & _ & Hval & _)
          | match goal with
            | |- context [IntParam_setFromAny p ?v ?sep] =>
                destruct (IntParam_setFromAny_coerced p v sep) as (_ & _ & _ & _ & Hval & _)
            end ];
    eauto.
Qed.

(** When resolving an int parameter that carries the validator
    [Range(lo, hi)] adds no error, the value the parameter then holds,
    from a source or the default, lies between [lo] and [hi]. *)
Theorem clean_load_in_range (p : IntParam) (lo hi : Z) (sources : list source)
    (opts : Options) (loadErr : list error) :
  Range lo hi ∈ validators p →
  (loadParam (PInt p) sources opts loadErr).2 = loadErr →
  ∃ p', (loadParam (PInt p) sources opts loadErr).1 = PInt p' ∧ lo ≤ value p' ≤ hi.
Proof.
  intros Hin Hclean.
  destruct (loadParam_PInt p sources opts loadErr) as (p' & Hcell & Hvals).
  exists p'. split; [done|].
  assert (Hval : validate (PInt p') = None).
  { rewrite <- Hcell. revert Hclean. rewrite loadParam_unfold. cbv zeta.
    assert (Happ : ∀ added : list error, loadErr ++ added = loadErr → added = []).
    { intros added Heq. apply (f_equal length) in Heq. rewrite length_app in Heq.
      destruct added; [done | cbn in Heq; lia]. }
    assert (Hchecks : ∀ Q, checks Q = [] → validate Q = None).
    { intros Q. unfold checks. by destruct (validate Q). }
    destruct (is_nil _); cbn [fst snd].
    - intros Heq. by apply Hchecks, Happ.
    - destruct (coerce _ _ _) as [Q [e|]]; cbn [fst snd]; intros Heq.
      + by apply Happ in Heq.
      + by apply Hchecks, Happ. }
  cbn [validate] in Hval. unfold param_validate in Hval.
  destruct (first_failure (validators p') (value p')) eqn:Hff; [done|].
  apply first_failure_none in Hff. rewrite Hvals in Hff.
  rewrite Forall_forall in Hff. specialize (Hff _ Hin).
  unfold Range in Hff.
  destruct (value p' <? lo) eqn:H1, (hi <? value p') eqn:H2; cbn [orb] in Hff; try done; lia.
Qed.

End CleanLoad.

Lemma clean_load_in_range_witness :
  Range 1 65535 ∈ validators ranged_port ∧
  (loadParam (H := demo.runtime) (PInt ranged_port) (examples.sources ["--port=8080"] "")
     (examples.options ["--port=8080"] "" "") []).2 = [] ∧
  ∃ p', (loadParam (H := demo.runtime) (PInt ranged_port)
           (examples.sources ["--port=8080"] "")
           (examples.options ["--port=8080"] "" "") []).1 = PInt p' ∧ 1 ≤ value p' ≤ 65535.
Proof.
  assert (Hin : Range 1 65535 ∈ validators ranged_port) by apply list_elem_of_here.
  assert (Hclean : (loadParam (H := demo.runtime) (PInt ranged_port)
                      (examples.sources ["--port=8080"] "")
                      (examples.options ["--port=8080"] "" "") []).2 = [])
    by (vm_compute; reflexivity).
  split; [exact Hin|]. split; [exact Hclean|].
  exact (clean_load_in_range (H := demo.runtime) ranged_port 1 65535
           (examples.sources ["--port=8080"] "")
           (examples.options ["--port=8080"] "" "") [] Hin Hclean).
Defined.

(** ** Dump *)

Section DumpFacts.
Context `{Runtime}.
Variable isSecret : Param → bool.

Lemma append_nil_r (s : string) : s +:+ "" = s.
Proof. induction s as [|c s IH]; [done | by rewrite append_cons, IH]. Qed.

Lemma dump_loop_next (i : nat) (params : list Param) (b : string) :
  dump_loop isSecret (S i) params b
    = b +:+ fold_right (λ p acc, String "010"%char "" +:+ dump_line isSecret p +:+ acc)
              "" params.
Proof.
  revert i b. induction params as [|p params IH]; intros i b.
  - cbn. by rewrite append_nil_r.
  - cbn [dump_loop fold_right]. rewrite IH. cbn [Nat.ltb Nat.leb].
    unfold dump_line, maskedValue.
    destruct (isSecret p), (IsSet p), (hasDefault p); cbn [negb andb orb];
      by rewrite !append_assoc.
Qed.

Lemma concat_lines (p : Param) (params : list Param) :
  String.concat (String "010"%char "") (dump_line isSecret <$> (p :: params))
    = dump_line isSecret p
      +:+ fold_right (λ q acc, String "010"%char "" +:+ dump_line isSecret q +:+ acc)
            "" params.
Proof.
  revert p. induction params as [|q params IH]; intros p.
  - cbn. by rewrite append_nil_r.
  - change (String.concat (String "010"%char "") (dump_line isSecret <$> p :: q :: params))
      with (dump_line isSecret p +:+ String "010"%char ""
              +:+ String.concat (String "010"%char "") (dump_line isSecret <$> (q :: params))).
    by rewrite IH.
Qed.

(** [dumpParams] renders one line [key = value] per parameter, in
    order, separated by single newlines with none at either end (the
    empty string for no parameter); a secret parameter shows the mask
    whatever it holds. *)
Theorem dumpParams_lines (params : list Param) :
  dumpParams isSecret params
    = String.concat (String "010"%char "") (dump_line isSecret <$> params).
Proof.
  unfold dumpParams. destruct params as [|p params]; [done|].
  rewrite concat_lines. cbn [dump_loop]. rewrite dump_loop_next.
  cbn [Nat.ltb Nat.leb]. unfold dump_line, maskedValue.
  destruct (isSecret p), (IsSet p), (hasDefault p); cbn [negb andb orb];
    by rewrite ?append_assoc.
Qed.

End DumpFacts.

(** ** Resolving again *)

Section Again.
Context `{Runtime}.

Lemma fill_list_again {T A : Type} (zero : T) (expected : string)
    (conv : A → T + (string * option cause)) (p : param (list T)) (xs : list A) :
  fill_list zero expected conv (fill_list zero expected conv p xs).1 xs
    = fill_list zero expected conv p xs.
Proof.
  unfold fill_list. cbn [value assign].
  by destruct (range_fill conv xs 0 (replicate (length xs) zero)) as [buf [[bad c]|]].
Qed.

Local Ltac again :=
  unfold rewrap; cbn [fst snd setFromString setFromAny]; unfold rewrap; cbn [fst snd];
  unfold StringParam_setFromString, IntParam_setFromString, BoolParam_setFromString,
    FloatParam_setFromString, DurationParam_setFromString,
    StringListParam_setFromString, IntListParam_setFromString,
    BoolListParam_setFromString, FloatListParam_setFromString,
    DurationListParam_setFromString;
  repeat (case_decide || case_match); simplify_eq/=; rewrite ?fill_list_again; try done.

Lemma setFromString_again (P : Param) (s sep : string) :
  setFromString (setFromString P s sep).1 s sep = setFromString P s sep.
Proof. destruct P; cbn [setFromString]; again. Qed.

Lemma setFromAny_VString (P : Param) (s sep : string) :
  setFromAny P (VString s) sep = setFromString P s sep.
Proof. by destruct P. Qed.

Lemma setFromAny_again (P : Param) (v : any) (sep : string) :
  setFromAny (setFromAny P v sep).1 v sep = setFromAny P v sep.
Proof.
  assert (Hv : (∃ s, v = VString s) ∨ ∀ s, v ≠ VString s)
    by (destruct v; eauto).
  destruct Hv as [[s ->]|Hv].
  { rewrite !setFromAny_VString. apply setFromString_again. }
  destruct P, v; try (by destruct (Hv s)); cbn [setFromAny];
    unfold StringParam_setFromAny, IntParam_setFromAny, BoolParam_setFromAny,
      FloatParam_setFromAny, DurationParam_setFromAny, StringListParam_setFromAny,
      IntListParam_setFromAny, BoolListParam_setFromAny, FloatListParam_setFromAny,
      DurationListParam_setFromAny; again.
Qed.

Lemma coerce_again (P : Param) (v : any) (sep : string) :
  coerce (coerce P v sep).1 v sep = coerce P v sep.
Proof. unfold coerce. destruct v; auto using setFromString_again, setFromAny_again. Qed.

(** Resolving a parameter a second time against the same sources
    changes nothing: the cell stays as the first resolution left it and
    the same errors are reported again. *)
Theorem loadParam_again (P : Param) (sources : list source) (opts : Options)
    (loadErr1 loadErr2 : list error) :
  loadParam (loadParam P sources opts loadErr1).1 sources opts loadErr2
    = ((loadParam P sources opts loadErr1).1, loadErr2 ++ param_errors P sources opts).
Proof.
  unfold param_errors.
  pose proof (loadParam_appends_aux P sources opts loadErr1) as (_ & _ & _ & Hk & _).
  rewrite (loadParam_unfold (loadParam P sources opts loadErr1).1). cbv zeta.
  rewrite Hk. rewrite loadParam_cell, (loadParam_unfold P sources opts []). cbv zeta.
  destruct (is_nil (first_value sources (key P))); [done|].
  rewrite coerce_again.
  by destruct (coerce P _ _) as [P' [e|]].
Qed.

End Again.
